(** * Package db: dual-pool Postgres connector

    A shallow embedding of package [db]: the statement classifier
    [getProxyFromSQL], the routing methods of [AWSDB] ([Begin], [BeginFunc],
    [Exec], [Query], [QueryRow]), the deferred-error row [DBProxyError], the
    goroutines started by [NewConnection] and [Ping], and the token refresh
    callback installed by [dbOpen].

    The libraries the package calls (the SQL parser, pgxpool, the AWS SDK,
    encoding/json, the clock) are an interface, [Extern]; every definition
    below is parametric in it. *)

From Stdlib Require Import String Ascii List ZArith NArith Lia Bool Permutation.
From Stdlib Require Import DecimalString.
Import ListNotations.
Local Open Scope string_scope.
Local Open Scope list_scope.

Set Implicit Arguments.
Local Set Warnings "-register-all".

(* ================================================================== *)
(** * Go values *)
(* ================================================================== *)

(** An [error] is a pointer to an error object: [addr] is the identity that
    [==] compares, [text] is what [Error()] prints and [unwrap] is what
    [Unwrap()] returns ([None] for [*errors.errorString]). *)
Inductive error : Type :=
  MkError (addr : N) (text : string) (unwrap : option error).

Definition err_addr (e : error) : N := let 'MkError a _ _ := e in a.
Definition Error (e : error) : string := let 'MkError _ t _ := e in t.
Definition Unwrap (e : error) : option error := let 'MkError _ _ u := e in u.

(** [errors.Is]: walks the [Unwrap] chain of [err], comparing by identity. *)
Fixpoint errors_Is (err target : error) : bool :=
  match err with
  | MkError a _ u =>
      N.eqb a (err_addr target)
      || match u with
         | Some inner => errors_Is inner target
         | None => false
         end
  end.

(** Package-level variables, allocated once when the package is loaded. *)
Definition ErrReaderNotCreated : error := MkError 1 "reader pool not created" None.
Definition ErrWriterNotCreated : error := MkError 2 "writer pool not created" None.

(** [type DBProxies string] and its three constants. *)
Definition DBProxies : Type := string.
Definition Read : DBProxies := "read".
Definition Write : DBProxies := "write".
Definition ReadAndWrite : DBProxies := "readAndWrite".

(** [var secretNames = map[DBProxies]string{...}]; a missing key reads as
    the empty string. *)
Definition secretNames (dp : DBProxies) : string :=
  if String.eqb dp Read then "core_iam_user_read"
  else if String.eqb dp Write then "core_iam_user_write"
  else "".

(** [time.Time] and [time.Duration] in nanoseconds; the zero [Time] is 0. *)
Definition Time : Type := Z.
Definition Duration : Type := Z.
Definition time_Second : Duration := 1000000000%Z.
Definition time_Minute : Duration := (60 * time_Second)%Z.
Definition After (t u : Time) : bool := Z.ltb u t.
Definition Add (t : Time) (d : Duration) : Time := (t + d)%Z.

(** [%d] of [fmt.Sprintf]. *)
Definition fmt_d (n : Z) : string := NilZero.string_of_int (Z.to_int n).

Record dbSecret : Type := MkSecret {
  UserName : string;
  Engine : string;
  Host : string;
  Port : Z;
  DBName : string;
  exp : Time
}.

Definition zero_dbSecret : dbSecret := MkSecret "" "" "" 0 "" 0%Z.

Definition set_exp (ds : dbSecret) (t : Time) : dbSecret :=
  MkSecret (UserName ds) (Engine ds) (Host ds) (Port ds) (DBName ds) t.

(** [type DBProxyError struct { err error }]; a nil [err] is [None]. *)
Record DBProxyError : Type := MkDBProxyError { err : option error }.

(** [DBProxyError{e}] for an error [e] that is not nil. *)
Definition proxyError (e : error) : DBProxyError := MkDBProxyError (Some e).

(** The closures [dbOpen] stores in the pool configuration, as data: the
    [BeforeConnect] closure captures [ctx] and the receiver copy [ds]; the
    [AfterConnect] closure captures nothing. [C] is [context.Context]. *)
Inductive Hook (C : Type) : Type :=
| RefreshToken (ctx : C) (ds : dbSecret)
| RegisterTypes.

Arguments RegisterTypes {C}.

(** The fields of [pgxpool.Config] that [dbOpen] reads or writes. *)
Record PoolConfig (C : Type) : Type := MkPoolConfig {
  ConnString : string;
  PreferSimpleProtocol : bool;
  MaxConnIdleTime : Duration;
  BeforeConnect_hook : option (Hook C);
  AfterConnect_hook : option (Hook C)
}.

(** [pgx.ConnConfig], as far as the callback touches it. *)
Record ConnConfig : Type := MkConnConfig { Password : string }.

(* ================================================================== *)
(** * The libraries the package calls *)
(* ================================================================== *)

Class Extern : Type := {
  (** context.Context, interface{} and func(pgx.Tx) error *)
  Ctx : Type;
  Any : Type;
  TxFunc : Type;
  (** github.com/auxten/postgresql-parser *)
  tree_Statement : Type;
  parser_Parse : string -> list tree_Statement * option error;
  tree_CanWriteData : tree_Statement -> bool;
  tree_CanModifySchema : tree_Statement -> bool;
  (** github.com/jackc/pgx/v4/pgxpool: a [Pool] is a non-nil [*pgxpool.Pool] *)
  Pool : Type;
  Tx : Type;
  CommandTag : Type;
  Rows : Type;
  PoolRow : Type;
  pool_Begin : Pool -> Ctx -> option Tx * option error;
  pool_BeginFunc : Pool -> Ctx -> TxFunc -> option error;
  pool_Exec : Pool -> Ctx -> string -> list Any -> option CommandTag * option error;
  pool_Query : Pool -> Ctx -> string -> list Any -> option Rows * option error;
  pool_QueryRow : Pool -> Ctx -> string -> list Any -> option PoolRow;
  pool_Ping : Pool -> Ctx -> option error;
  pool_Scan : PoolRow -> list Any -> option error;
  pgxpool_ParseConfig : string -> option (PoolConfig Ctx) * option error;
  pgxpool_ConnectConfig : Ctx -> PoolConfig Ctx -> option Pool * option error;
  (** AWS SDK and encoding/json; [awsConfig_Region] is the package
      variable [awsConfig.Region] of package aws, nil when AWS_REGION was
      not set; the result of [secrets_GetSecretValue] is
      [result.SecretString] and the error *)
  AwsCfg : Type;
  awsConfig_Region : option string;
  session_NewSession : option error;
  secrets_GetSecretValue : string -> option string * option error;
  json_Unmarshal : string -> dbSecret -> dbSecret * option error;
  config_LoadDefaultConfig : Ctx -> AwsCfg * option error;
  auth_BuildAuthToken : Ctx -> string -> string -> string -> AwsCfg -> string * option error;
  (** the clock: the [n]-th call of [time.Now] *)
  clock : nat -> Time
}.

(* ================================================================== *)
(** * Sequential code: a state monad with panics *)
(* ================================================================== *)

Inductive Res (A : Type) : Type :=
| Val (a : A)
| Panic (why : string).

Arguments Panic {A} why.

Section Sequential.

Context {E : Extern}.

(** What a call of a library did to the outside world. *)
Inductive Call : Type :=
| CallBegin (p : Pool) (ctx : Ctx)
| CallBeginFunc (p : Pool) (ctx : Ctx) (f : TxFunc)
| CallExec (p : Pool) (ctx : Ctx) (sql : string) (args : list Any)
| CallQuery (p : Pool) (ctx : Ctx) (sql : string) (args : list Any)
| CallQueryRow (p : Pool) (ctx : Ctx) (sql : string) (args : list Any)
| CallPing (p : Pool) (ctx : Ctx)
| CallClose (p : Pool)
| CallGetSecretValue (id : string)
| CallConnectConfig (ctx : Ctx) (cfg : PoolConfig Ctx)
| CallLoadDefaultConfig (ctx : Ctx)
| CallBuildAuthToken (ctx : Ctx) (endpoint region user : string).

(** [next_addr]: where the next error object is allocated; [calls]: the
    library calls made so far, oldest first; [ticks]: how many times the
    clock was read. *)
Record World : Type := MkWorld {
  next_addr : N;
  calls : list Call;
  ticks : nat
}.

Definition M (A : Type) : Type := World -> Res A * World.

Definition ret {A} (a : A) : M A := fun w => (Val a, w).

Definition bind {A B} (m : M A) (k : A -> M B) : M B :=
  fun w =>
    match m w with
    | (Val a, w') => k a w'
    | (Panic why, w') => (Panic why, w')
    end.

Definition panic {A} (why : string) : M A := fun w => (Panic why, w).

Definition emit (c : Call) : M unit :=
  fun w => (Val tt, MkWorld (next_addr w) (calls w ++ [c]) (ticks w)).

(** [errors.New]: a fresh [*errorString]. *)
Definition errors_New (s : string) : M error :=
  fun w => (Val (MkError (next_addr w) s None),
            MkWorld (N.succ (next_addr w)) (calls w) (ticks w)).

(** [fmt.Errorf(prefix + "%v", e)]: the format has no [%w], so the result
    is [errors.New] of the formatted text. *)
Definition fmt_Errorf_v (prefix : string) (e : error) : M error :=
  errors_New (prefix ++ Error e)%string.

Definition time_Now : M Time :=
  fun w => (Val (clock (ticks w)),
            MkWorld (next_addr w) (calls w) (S (ticks w))).

End Sequential.

Notation "x <- m ;; k" := (bind m (fun x => k))
  (at level 61, m at next level, right associativity).
Notation "m ;;; k" := (bind m (fun _ => k))
  (at level 61, right associativity).

(* ================================================================== *)
(** * Statement classifier and routing methods *)
(* ================================================================== *)

Section PoolManager.

Context {E : Extern}.

(** [type AWSDB struct { reader, writer *pgxpool.Pool }]; [None] is nil. *)
Record AWSDB : Type := MkAWSDB {
  reader : option Pool;
  writer : option Pool
}.

(** A [pgx.Row] that is not nil: this package's [DBProxyError], or a row
    of the pool. *)
Inductive Row : Type :=
| ProxyErrorRow (d : DBProxyError)
| PooledRow (r : PoolRow).

(** [func (d DBProxyError) Scan(dest ...interface{}) error { return d.err }] *)
Definition DBProxyError_Scan (d : DBProxyError) (dest : list Any) : option error :=
  err d.

(** Method dispatch of [row.Scan(dest...)] on a [pgx.Row] interface value;
    a nil interface panics. *)
Definition Scan (row : option Row) (dest : list Any) : Res (option error) :=
  match row with
  | None => Panic "invalid memory address or nil pointer dereference"
  | Some (ProxyErrorRow d) => Val (DBProxyError_Scan d dest)
  | Some (PooledRow r) => Val (pool_Scan r dest)
  end.

(** The [for _, s := range stmts] loop of [getProxyFromSQL]. *)
Fixpoint rangeStatements (stmts : list tree_Statement) : DBProxies * option error :=
  match stmts with
  | [] => (Read, None)
  | s :: rest =>
      if tree_CanWriteData s || tree_CanModifySchema s
      then (Write, None)
      else rangeStatements rest
  end.

Definition getProxyFromSQL (sql : string) : DBProxies * option error :=
  match parser_Parse sql with
  | (_, Some e) => ("", Some e)
  | (stmts, None) => rangeStatements stmts
  end.

(** A method call on a pool field: a nil receiver panics inside pgxpool. *)
Definition deref {A} (p : option Pool) (k : Pool -> M A) : M A :=
  match p with
  | None => panic "invalid memory address or nil pointer dereference"
  | Some q => k q
  end.

Definition isNil {A} (p : option A) : bool :=
  match p with None => true | Some _ => false end.

Definition Begin (d : AWSDB) (ctx : Ctx) : M (option Tx * option error) :=
  if isNil (writer d) then ret (None, Some ErrWriterNotCreated)
  else deref (writer d) (fun p => emit (CallBegin p ctx) ;;; ret (pool_Begin p ctx)).

Definition BeginFunc (d : AWSDB) (ctx : Ctx) (f : TxFunc) : M (option error) :=
  if isNil (writer d) then ret (Some ErrWriterNotCreated)
  else deref (writer d) (fun p => emit (CallBeginFunc p ctx f) ;;; ret (pool_BeginFunc p ctx f)).

Definition Exec (d : AWSDB) (ctx : Ctx) (sql : string) (args : list Any)
  : M (option CommandTag * option error) :=
  if isNil (writer d) then ret (None, Some ErrWriterNotCreated)
  else deref (writer d) (fun p => emit (CallExec p ctx sql args) ;;; ret (pool_Exec p ctx sql args)).

Definition Query (d : AWSDB) (ctx : Ctx) (sql : string) (args : list Any)
  : M (option Rows * option error) :=
  match getProxyFromSQL sql with
  | (_, Some e) =>
      e' <- fmt_Errorf_v "could not parse sql string: " e ;;
      ret (None, Some e')
  | (proxy, None) =>
      if String.eqb proxy Read then
        if isNil (reader d) then ret (None, Some ErrReaderNotCreated)
        else deref (reader d) (fun p =>
               emit (CallQuery p ctx sql args) ;;; ret (pool_Query p ctx sql args))
      else if String.eqb proxy Write then
        if isNil (writer d) then ret (None, Some ErrWriterNotCreated)
        else deref (writer d) (fun p =>
               emit (CallQuery p ctx sql args) ;;; ret (pool_Query p ctx sql args))
      else
        e' <- errors_New "error getting db proxy" ;;
        ret (None, Some e')
  end.

Definition QueryRow (d : AWSDB) (ctx : Ctx) (sql : string) (args : list Any)
  : M (option Row) :=
  match getProxyFromSQL sql with
  | (_, Some e) =>
      e' <- fmt_Errorf_v "could not parse sql string: " e ;;
      ret (Some (ProxyErrorRow (proxyError e')))
  | (proxy, None) =>
      if String.eqb proxy Read then
        if isNil (reader d) then ret (Some (ProxyErrorRow (proxyError ErrReaderNotCreated)))
        else deref (reader d) (fun p =>
               emit (CallQueryRow p ctx sql args) ;;;
               ret (option_map PooledRow (pool_QueryRow p ctx sql args)))
      else if String.eqb proxy Write then
        if isNil (writer d) then ret (Some (ProxyErrorRow (proxyError ErrWriterNotCreated)))
        else deref (writer d) (fun p =>
               emit (CallQueryRow p ctx sql args) ;;;
               ret (option_map PooledRow (pool_QueryRow p ctx sql args)))
      else
        e' <- errors_New "error getting db proxy" ;;
        ret (Some (ProxyErrorRow (proxyError e')))
  end.

(** [Close]: closes whichever pools are not nil. *)
Definition Close (d : AWSDB) : M unit :=
  (if isNil (reader d) then ret tt else deref (reader d) (fun p => emit (CallClose p))) ;;;
  (if isNil (writer d) then ret tt else deref (writer d) (fun p => emit (CallClose p))).

End PoolManager.

(* ================================================================== *)
(** * Credentials: package aws and the pool opener *)
(* ================================================================== *)

Section Credentials.

Context {E : Extern}.

Definition nil_deref : string := "invalid memory address or nil pointer dereference".

(** [aws.GetSecret] with [secret.getSecretString] inlined:
    [session.Must] panics when the session cannot be made, a failed
    [GetSecretValue] is replaced by a new error, [*result.SecretString]
    is dereferenced. *)
Definition GetSecret (id : string) : M (string * option error) :=
  match session_NewSession with
  | Some e => panic (Error e)
  | None =>
      emit (CallGetSecretValue id) ;;;
      match secrets_GetSecretValue id with
      | (_, Some _) =>
          e' <- errors_New "secret not found" ;;
          ret ("", Some e')
      | (None, None) => panic nil_deref
      | (Some str, None) => ret (str, None)
      end
  end.

(** [getValuesAWS]: returns the receiver as it is after the call, and the
    error. *)
Definition getValuesAWS (ds : dbSecret) (name : string) : M (dbSecret * option error) :=
  r <- GetSecret name ;;
  match r with
  | (_, Some e) => ret (ds, Some e)
  | (str, None) =>
      match json_Unmarshal str ds with
      | (ds', Some e) => ret (ds', Some e)
      | (ds', None) => ret (ds', None)
      end
  end.

(** [aws.GetRDSAuthToken] *)
Definition GetRDSAuthToken (ctx : Ctx) (host user : string) (port : Z)
  : M (string * option error) :=
  emit (CallLoadDefaultConfig ctx) ;;;
  match config_LoadDefaultConfig ctx with
  | (_, Some e) => ret ("", Some e)
  | (cfg, None) =>
      match awsConfig_Region with
      | None => panic nil_deref
      | Some region =>
          let endpoint := (host ++ ":" ++ fmt_d port)%string in
          emit (CallBuildAuthToken ctx endpoint region user) ;;;
          ret (auth_BuildAuthToken ctx endpoint region user cfg)
      end
  end.

(** The [cfg.BeforeConnect] closure of [dbOpen]. [ctx] and [ds] are the
    captured variables of [dbOpen], [c] and [cc] the arguments; the result
    is the captured [ds] and the pointee of [cc] after the call, and the
    returned error. *)
Definition BeforeConnect (ctx : Ctx) (ds : dbSecret) (c : Ctx) (cc : ConnConfig)
  : M (dbSecret * ConnConfig * option error) :=
  now <- time_Now ;;
  if After now (exp ds) then
    r <- GetRDSAuthToken ctx (Host ds) (UserName ds) (Port ds) ;;
    let cc' := MkConnConfig (fst r) in
    match snd r with
    | Some e => ret (ds, cc', Some e)
    | None =>
        now' <- time_Now ;;
        ret (set_exp ds (Add now' (time_Second * 890)%Z), cc', None)
    end
  else ret (ds, cc, None).

(** Calling a stored closure: what the pool does with [cfg.BeforeConnect]
    and [cfg.AfterConnect] when it opens a physical connection. The
    closure comes back with its captured [ds] as the call left it. The
    [AfterConnect] closure only registers two data types on the
    connection. *)
Definition call_hook (h : Hook Ctx) (c : Ctx) (cc : ConnConfig)
  : M (Hook Ctx * ConnConfig * option error) :=
  match h with
  | RefreshToken ctx ds =>
      r <- BeforeConnect ctx ds c cc ;;
      ret (RefreshToken ctx (fst (fst r)), snd (fst r), snd r)
  | RegisterTypes => ret (RegisterTypes, cc, None)
  end.

(** [dbOpen] *)
Definition dbOpen (ds : dbSecret) (ctx : Ctx) : M (option Pool * option error) :=
  let dsn := ("host=" ++ Host ds ++ " port=" ++ fmt_d (Port ds) ++ " user=" ++ UserName ds
              ++ " password=" ++ "foo" ++ " dbname=" ++ DBName ds)%string in
  match pgxpool_ParseConfig dsn with
  | (_, Some e) => ret (None, Some e)
  | (None, None) => panic nil_deref
  | (Some cfg, None) =>
      let cfg' := MkPoolConfig (ConnString cfg) true (time_Second * 59)%Z
                    (Some (RefreshToken ctx ds)) (Some RegisterTypes) in
      emit (CallConnectConfig ctx cfg') ;;;
      ret (pgxpool_ConnectConfig ctx cfg')
  end.

End Credentials.

(* ================================================================== *)
(** * Goroutines of NewConnection and Ping *)
(* ================================================================== *)

(** [NewConnection] and [Ping] start goroutines that share the connector,
    an unbuffered channel [errs] and a [sync.WaitGroup]. Each goroutine is
    a program counter; [step] runs one statement of one goroutine, and is
    [None] when that goroutine cannot move (not started, blocked on the
    channel or the wait group, finished, or the program has panicked). *)

Section Goroutines.

Context {E : Extern}.

(** The calling goroutine. The counters carry the locals they need. *)
Inductive MainPC : Type :=
| NC_start (dp : DBProxies)   (* errs := make(chan error); wg.Add(1); go func() {...}() *)
| NC_switch (dp : DBProxies)  (* switch dp: the first statement of the chosen case *)
| NC_goRead                   (* case ReadAndWrite: go db.connect(ctx, Read, errs, &wg) *)
| NC_goWrite                  (* case ReadAndWrite: go db.connect(ctx, Write, errs, &wg) *)
| NC_retInvalid               (* default: return fmt.Errorf(...) *)
| PG_start                    (* Ping: errs := make(chan error); go func() {...}() *)
| PG_checkReader              (* if d.reader != nil { wg.Add(1) *)
| PG_goReader                 (*   go d.pingProxy(ctx, Read, errs, &wg) } *)
| PG_checkWriter              (* if d.writer != nil { wg.Add(1) *)
| PG_goWriter                 (*   go d.pingProxy(ctx, Write, errs, &wg) } *)
| M_range                     (* for err := range errs { if err != nil { return err } } *)
| M_returned (r : option error).

(** The anonymous goroutine [func() { wg.Wait(); close(errs) }]. *)
Inductive CloserPC : Type :=
| K_absent
| K_wait      (* wg.Wait() *)
| K_close     (* close(errs) *)
| K_done.

(** A goroutine running [connect] or [pingProxy]. *)
Inductive WorkerPC : Type :=
| W_absent
| C_getValues               (* rs.getValuesAWS(secretNames[dp]) *)
| C_switch (rs : dbSecret)  (* switch dp: db.reader, err = rs.dbOpen(ctx) *)
| C_ping                    (* db.reader.Ping(ctx) *)
| C_log                     (* log.Printf("database %v proxy connected", dp) *)
| P_ping                    (* pingProxy: switch dp: d.reader.Ping(ctx) *)
| W_send (e : error)        (* c <- err; return *)
| W_deferred                (* the deferred wg.Done() *)
| W_exited.

Inductive Tid : Type := T_main | T_closer | T_read | T_write.

Record Shared : Type := MkShared {
  db : AWSDB;               (* the receiver *)
  wg : Z;                   (* the counter of the WaitGroup *)
  closed : bool;            (* errs has been closed *)
  crashed : option string;  (* a panic has ended the program *)
  logs : list string;
  world : World
}.

Record St : Type := MkSt {
  shared : Shared;
  mainpc : MainPC;
  closerpc : CloserPC;
  readpc : WorkerPC;
  writepc : WorkerPC
}.

Definition with_db (sh : Shared) (d : AWSDB) : Shared :=
  MkShared d (wg sh) (closed sh) (crashed sh) (logs sh) (world sh).
Definition with_wg (sh : Shared) (n : Z) : Shared :=
  MkShared (db sh) n (closed sh) (crashed sh) (logs sh) (world sh).
Definition with_closed (sh : Shared) : Shared :=
  MkShared (db sh) (wg sh) true (crashed sh) (logs sh) (world sh).
Definition crash (why : string) (sh : Shared) : Shared :=
  MkShared (db sh) (wg sh) (closed sh) (Some why) (logs sh) (world sh).
Definition with_log (sh : Shared) (line : string) : Shared :=
  MkShared (db sh) (wg sh) (closed sh) (crashed sh) (logs sh ++ [line]) (world sh).
Definition with_world (sh : Shared) (w : World) : Shared :=
  MkShared (db sh) (wg sh) (closed sh) (crashed sh) (logs sh) w.

(** [wg.Add(delta)]: a negative counter panics. *)
Definition wg_Add (delta : Z) (sh : Shared) : Shared :=
  let n := (wg sh + delta)%Z in
  if (n <? 0)%Z then crash "sync: negative WaitGroup counter" sh
  else with_wg sh n.

Definition wg_Done (sh : Shared) : Shared := wg_Add (-1) sh.

(** The pool field that [case dp] of [connect] and [pingProxy] uses. *)
Definition field (dp : DBProxies) (d : AWSDB) : option Pool :=
  if String.eqb dp Read then reader d else writer d.

Definition set_field (dp : DBProxies) (d : AWSDB) (p : option Pool) : AWSDB :=
  if String.eqb dp Read then MkAWSDB p (writer d) else MkAWSDB (reader d) p.

(** [db.reader.Ping(ctx)] on the pool field of [dp]. *)
Definition ping_field (ctx : Ctx) (dp : DBProxies) (sh : Shared) : Res (option error) * World :=
  deref (field dp (db sh)) (fun p => emit (CallPing p ctx) ;;; ret (pool_Ping p ctx)) (world sh).

(** One statement of a goroutine running [connect(ctx, dp, errs, &wg)] or
    [pingProxy(ctx, dp, errs, &wg)]. The send [c <- err] on the unbuffered
    channel completes only together with the receive of the calling
    goroutine, which then leaves its loop through [return err]; a send on
    a closed channel panics. *)
Definition worker_step (ctx : Ctx) (dp : DBProxies) (pc : WorkerPC) (m : MainPC) (sh : Shared)
  : option (WorkerPC * MainPC * Shared) :=
  match pc with
  | W_absent => None
  | C_getValues =>
      match getValuesAWS zero_dbSecret (secretNames dp) (world sh) with
      | (Panic why, w') => Some (pc, m, crash why (with_world sh w'))
      | (Val (_, Some e), w') => Some (W_send e, m, with_world sh w')
      | (Val (rs, None), w') => Some (C_switch rs, m, with_world sh w')
      end
  | C_switch rs =>
      if String.eqb dp Read || String.eqb dp Write then
        match dbOpen rs ctx (world sh) with
        | (Panic why, w') => Some (pc, m, crash why (with_world sh w'))
        | (Val (p, oe), w') =>
            let sh' := with_db (with_world sh w') (set_field dp (db sh) p) in
            match oe with
            | Some e => Some (W_send e, m, sh')
            | None => Some (C_ping, m, sh')
            end
        end
      else Some (C_log, m, sh)
  | C_ping =>
      match ping_field ctx dp sh with
      | (Panic why, w') => Some (pc, m, crash why (with_world sh w'))
      | (Val (Some e), w') => Some (W_send e, m, with_world sh w')
      | (Val None, w') => Some (C_log, m, with_world sh w')
      end
  | C_log =>
      Some (W_deferred, m, with_log sh ("database " ++ dp ++ " proxy connected")%string)
  | P_ping =>
      if String.eqb dp Read || String.eqb dp Write then
        match ping_field ctx dp sh with
        | (Panic why, w') => Some (pc, m, crash why (with_world sh w'))
        | (Val (Some e), w') => Some (W_send e, m, with_world sh w')
        | (Val None, w') => Some (W_deferred, m, with_world sh w')
        end
      else Some (W_deferred, m, sh)
  | W_send e =>
      if closed sh then Some (pc, m, crash "send on closed channel" sh)
      else match m with
           | M_range => Some (W_deferred, M_returned (Some e), sh)
           | _ => None
           end
  | W_deferred => Some (W_exited, m, wg_Done sh)
  | W_exited => None
  end.

(** One statement of the calling goroutine. At [M_range] it waits for a
    sender (the send moves it) or for the channel to be closed. *)
Definition main_step (s : St) : option St :=
  let sh := shared s in
  match mainpc s with
  | NC_start dp =>
      Some (MkSt (wg_Add 1 sh) (NC_switch dp) K_wait (readpc s) (writepc s))
  | NC_switch dp =>
      if String.eqb dp Read then
        Some (MkSt sh M_range (closerpc s) C_getValues (writepc s))
      else if String.eqb dp Write then
        Some (MkSt sh M_range (closerpc s) (readpc s) C_getValues)
      else if String.eqb dp ReadAndWrite then
        Some (MkSt (wg_Add 1 sh) NC_goRead (closerpc s) (readpc s) (writepc s))
      else
        Some (MkSt (wg_Done sh) NC_retInvalid (closerpc s) (readpc s) (writepc s))
  | NC_goRead => Some (MkSt sh NC_goWrite (closerpc s) C_getValues (writepc s))
  | NC_goWrite => Some (MkSt sh M_range (closerpc s) (readpc s) C_getValues)
  | NC_retInvalid =>
      match errors_New (Read ++ ", " ++ Write ++ ", or " ++ ReadAndWrite ++ " not provided")%string
                       (world sh) with
      | (Val e, w') =>
          Some (MkSt (with_world sh w') (M_returned (Some e)) (closerpc s) (readpc s) (writepc s))
      | (Panic why, w') =>
          Some (MkSt (crash why (with_world sh w')) (mainpc s) (closerpc s) (readpc s) (writepc s))
      end
  | PG_start => Some (MkSt sh PG_checkReader K_wait (readpc s) (writepc s))
  | PG_checkReader =>
      if isNil (reader (db sh))
      then Some (MkSt sh PG_checkWriter (closerpc s) (readpc s) (writepc s))
      else Some (MkSt (wg_Add 1 sh) PG_goReader (closerpc s) (readpc s) (writepc s))
  | PG_goReader => Some (MkSt sh PG_checkWriter (closerpc s) P_ping (writepc s))
  | PG_checkWriter =>
      if isNil (writer (db sh))
      then Some (MkSt sh M_range (closerpc s) (readpc s) (writepc s))
      else Some (MkSt (wg_Add 1 sh) PG_goWriter (closerpc s) (readpc s) (writepc s))
  | PG_goWriter => Some (MkSt sh M_range (closerpc s) (readpc s) P_ping)
  | M_range =>
      if closed sh
      then Some (MkSt sh (M_returned None) (closerpc s) (readpc s) (writepc s))
      else None
  | M_returned _ => None
  end.

(** One statement of [func() { wg.Wait(); close(errs) }]. *)
Definition closer_step (s : St) : option St :=
  let sh := shared s in
  match closerpc s with
  | K_absent => None
  | K_wait =>
      if (wg sh =? 0)%Z
      then Some (MkSt sh (mainpc s) K_close (readpc s) (writepc s))
      else None
  | K_close =>
      if closed sh
      then Some (MkSt (crash "close of closed channel" sh) (mainpc s) K_close (readpc s) (writepc s))
      else Some (MkSt (with_closed sh) (mainpc s) K_done (readpc s) (writepc s))
  | K_done => None
  end.

Definition step (ctx : Ctx) (t : Tid) (s : St) : option St :=
  match crashed (shared s) with
  | Some _ => None
  | None =>
      match t with
      | T_main => main_step s
      | T_closer => closer_step s
      | T_read =>
          match worker_step ctx Read (readpc s) (mainpc s) (shared s) with
          | Some (pc, m, sh) => Some (MkSt sh m (closerpc s) pc (writepc s))
          | None => None
          end
      | T_write =>
          match worker_step ctx Write (writepc s) (mainpc s) (shared s) with
          | Some (pc, m, sh) => Some (MkSt sh m (closerpc s) (readpc s) pc)
          | None => None
          end
      end
  end.

(** A schedule names the goroutine that moves at each step. *)
Fixpoint run (ctx : Ctx) (sched : list Tid) (s : St) : option St :=
  match sched with
  | [] => Some s
  | t :: rest =>
      match step ctx t s with
      | Some s' => run ctx rest s'
      | None => None
      end
  end.

(** The call [db.NewConnection(ctx, dp)] on the connector [d], in the
    world [w], before its first statement. *)
Definition NewConnection (d : AWSDB) (dp : DBProxies) (w : World) : St :=
  MkSt (MkShared d 0 false None [] w) (NC_start dp) K_absent W_absent W_absent.

(** The call [d.Ping(ctx)]. *)
Definition Ping (d : AWSDB) (w : World) : St :=
  MkSt (MkShared d 0 false None [] w) PG_start K_absent W_absent W_absent.

(** No goroutine can move. *)
Definition stuck (ctx : Ctx) (s : St) : Prop :=
  forall t, step ctx t s = None.

(** A goroutine that was started and has not run to its end. *)
Definition closer_pending (s : St) : bool :=
  match closerpc s with K_wait | K_close => true | _ => false end.

Definition worker_pending (pc : WorkerPC) : bool :=
  match pc with W_absent | W_exited => false | _ => true end.

Definition returned (s : St) : option (option error) :=
  match mainpc s with M_returned r => Some r | _ => None end.

End Goroutines.

(* ================================================================== *)
(** * A small concrete outside world *)
(* ================================================================== *)

(** An instance of [Extern] on which the definitions above evaluate: a
    parser that knows a few statements, pools that are numbers, a secret
    store, a pool opener and a liveness check that fail when told to. *)
Module Sample.

Inductive stmt : Type := Select | Insert | Update | Delete | CreateTable.

Definition CanWriteData (s : stmt) : bool :=
  match s with Insert | Update | Delete => true | _ => false end.

Definition CanModifySchema (s : stmt) : bool :=
  match s with CreateTable => true | _ => false end.

Definition syntax_error : error := MkError 100 "syntax error" None.

Definition Parse (sql : string) : list stmt * option error :=
  if String.eqb sql "SELECT 1" then ([Select], None)
  else if String.eqb sql "INSERT INTO some_table(id) VALUES (1);" then ([Insert], None)
  else if String.eqb sql "CREATE TABLE some_table(id INT);" then ([CreateTable], None)
  else if String.eqb sql "SELECT 1; INSERT INTO some_table(id) VALUES (1);"
       then ([Select; Insert], None)
  else ([], Some syntax_error).

Record Faults : Type := MkFaults {
  secret_missing : string -> bool;   (* GetSecretValue fails for this id *)
  connect_refused : bool;            (* ConnectConfig fails *)
  ping_lost : bool                   (* Ping fails *)
}.

Definition not_found : error := MkError 101 "ResourceNotFoundException" None.
Definition dial_error : error := MkError 102 "dial error" None.
Definition ping_timeout : error := MkError 103 "ping timeout" None.
Definition query_failed : error := MkError 104 "connection reset" None.

Definition env (f : Faults) : Extern := {|
  Ctx := unit;
  Any := string;
  TxFunc := unit;
  tree_Statement := stmt;
  parser_Parse := Parse;
  tree_CanWriteData := CanWriteData;
  tree_CanModifySchema := CanModifySchema;
  Pool := nat;
  Tx := nat;
  CommandTag := string;
  Rows := list string;
  PoolRow := string;
  pool_Begin := fun p _ => (Some p, None);
  pool_BeginFunc := fun _ _ _ => None;
  pool_Exec := fun _ _ _ _ => (Some "OK", None);
  pool_Query := fun p _ sql _ =>
    if String.eqb sql "SELECT 1" then (Some ["1"], None) else (None, Some query_failed);
  pool_QueryRow := fun _ _ _ _ => Some "1";
  pool_Ping := fun _ _ => if ping_lost f then Some ping_timeout else None;
  pool_Scan := fun _ _ => None;
  pgxpool_ParseConfig := fun dsn => (Some (MkPoolConfig dsn false 0%Z None None), None);
  pgxpool_ConnectConfig := fun _ cfg =>
    if connect_refused f then (None, Some dial_error) else (Some (String.length (ConnString cfg)), None);
  AwsCfg := unit;
  awsConfig_Region := Some "us-west-2";
  session_NewSession := None;
  secrets_GetSecretValue := fun id =>
    if secret_missing f id then (None, Some not_found) else (Some id, None);
  json_Unmarshal := fun str ds => (MkSecret str "postgres" "db.internal" 5432 "core" (exp ds), None);
  config_LoadDefaultConfig := fun _ => (tt, None);
  auth_BuildAuthToken := fun _ endpoint _ user _ => (user ++ "@" ++ endpoint, None)%string;
  clock := fun n => (1000 + Z.of_nat n * 100)%Z
|}.

Definition healthy : Faults := MkFaults (fun _ => false) false false.
Definition no_secrets : Faults := MkFaults (fun _ => true) false false.
Definition no_read_secret : Faults :=
  MkFaults (fun id => String.eqb id "core_iam_user_read") false false.
Definition refused : Faults := MkFaults (fun _ => false) true false.
Definition unreachable : Faults := MkFaults (fun _ => false) false true.

(** Error objects of the outside world live below address 1000. *)
Definition w0 (f : Faults) : @World (env f) := @MkWorld (env f) 1000 [] 0.

Definition no_pools (f : Faults) : @AWSDB (env f) := @MkAWSDB (env f) None None.
Definition read_only (f : Faults) : @AWSDB (env f) := @MkAWSDB (env f) (Some 1) None.
Definition write_only (f : Faults) : @AWSDB (env f) := @MkAWSDB (env f) None (Some 2).
Definition both_pools (f : Faults) : @AWSDB (env f) := @MkAWSDB (env f) (Some 1) (Some 2).

(** Running a schedule in the sample world with faults [f]. *)
Definition run_in (f : Faults) : list Tid -> @St (env f) -> option (@St (env f)) :=
  @run (env f) tt.

Arguments run_in : clear implicits.

(** What a failed [connect] of the reader has called in the sample world
    where pools do not answer: the secret, the open, the check. *)
Definition unreachable_calls : list (@Call (env unreachable)) :=
  [@CallGetSecretValue (env unreachable) "core_iam_user_read";
   @CallConnectConfig (env unreachable) tt
     (MkPoolConfig
        "host=db.internal port=5432 user=core_iam_user_read password=foo dbname=core"
        true 59000000000%Z
        (Some (RefreshToken tt
                 (MkSecret "core_iam_user_read" "postgres" "db.internal" 5432 "core" 0%Z)))
        (Some (@RegisterTypes unit)));
   @CallPing (env unreachable) 75 tt].

End Sample.

(* ================================================================== *)
(** * Vocabulary of the statements below *)
(* ================================================================== *)

Section Vocabulary.

Context {E : Extern}.

(** A statement that can write rows or modify the schema, as the
    classifier tests it. *)
Definition canWrite (s : tree_Statement) : bool :=
  tree_CanWriteData s || tree_CanModifySchema s.

(** The world after one more library call. *)
Definition called (w : World) (c : Call) : World :=
  MkWorld (next_addr w) (calls w ++ [c]) (ticks w).

(** The world after one more reading of the clock. *)
Definition ticked (w : World) : World :=
  MkWorld (next_addr w) (calls w) (S (ticks w)).

(** The text [Query] and [QueryRow] put in front of a parse error. *)
Definition parse_context : string := "could not parse sql string: ".

(** The ways [QueryRow] fails before any pool is asked, with the error
    that is to surface: the SQL does not parse (a new error object, made
    in world [w], that quotes the parser's message), or the pool that the
    classification selects is nil. *)
Inductive QueryRowFails (d : AWSDB) (sql : string) (w : World) : error -> Prop :=
| fails_parse stmts e :
    parser_Parse sql = (stmts, Some e) ->
    QueryRowFails d sql w (MkError (next_addr w) (parse_context ++ Error e) None)
| fails_no_reader :
    getProxyFromSQL sql = (Read, None) ->
    reader d = None ->
    QueryRowFails d sql w ErrReaderNotCreated
| fails_no_writer :
    getProxyFromSQL sql = (Write, None) ->
    writer d = None ->
    QueryRowFails d sql w ErrWriterNotCreated.

(** The stages at which [connect(ctx, dp, ...)] started in world [w] can
    fail, with the error it sends and the pool it has stored in the field
    of [dp] by then: the secret cannot be read, the pool cannot be opened
    (and [dbOpen] hands back nil), or the opened pool does not answer the
    liveness check. *)
Inductive connect_fails (ctx : Ctx) (dp : DBProxies) (w : World)
  : error -> option Pool -> World -> Prop :=
| fails_secret ds e w1 :
    getValuesAWS zero_dbSecret (secretNames dp) w = (Val (ds, Some e), w1) ->
    connect_fails ctx dp w e None w1
| fails_open rs w1 e w2 :
    getValuesAWS zero_dbSecret (secretNames dp) w = (Val (rs, None), w1) ->
    dbOpen rs ctx w1 = (Val (None, Some e), w2) ->
    connect_fails ctx dp w e None w2
| fails_ping rs w1 p w2 e :
    getValuesAWS zero_dbSecret (secretNames dp) w = (Val (rs, None), w1) ->
    dbOpen rs ctx w1 = (Val (Some p, None), w2) ->
    pool_Ping p ctx = Some e ->
    connect_fails ctx dp w e (Some p) (called w2 (CallPing p ctx)).

(** [// Refresh rds token before connect (token expires after 15 min)] and
    [// Set expire token expire time in 14m 50s]: the lifetime the provider
    states and the margin the code keeps. *)
Definition token_lifetime : Duration := (15 * time_Minute)%Z.
Definition safety_margin : Duration := (10 * time_Second)%Z.

(** The text of the error for a role that is none of the three. *)
Definition not_provided : string := "read, write, or readAndWrite not provided".

(** [d.QueryRow(ctx, sql, args...).Scan(dest...)]: the method call on the
    row that [QueryRow] returned, as the callers and the tests write it. *)
Definition QueryRow_Scan (d : AWSDB) (ctx : Ctx) (sql : string) (args dest : list Any)
  : M (option error) :=
  fun w =>
    match QueryRow d ctx sql args w with
    | (Val row, w') => (Scan row dest, w')
    | (Panic why, w') => (Panic why, w')
    end.

(** The calls [p.Close()] among the library calls made so far. *)
Definition is_close (c : Call) : bool :=
  match c with CallClose _ => true | _ => false end.

Definition closes (w : World) : list Call := filter is_close (calls w).

(** The requests for a token among the library calls made so far:
    [config.LoadDefaultConfig] and [auth.BuildAuthToken], the two calls
    of [aws.GetRDSAuthToken]. *)
Definition is_token_request (c : Call) : bool :=
  match c with
  | CallLoadDefaultConfig _ | CallBuildAuthToken _ _ _ _ => true
  | _ => false
  end.

Definition token_requests (w : World) : list Call := filter is_token_request (calls w).

End Vocabulary.

(* ================================================================== *)
(** * The states a call of NewConnection passes through *)
(* ================================================================== *)

Section Reachable.

Context {E : Extern}.

(** The closing goroutine and the channel agree: the channel is closed
    exactly when that goroutine is past [close(errs)]. *)
Inductive closer_at : CloserPC -> bool -> Prop :=
| closer_waiting : closer_at K_wait false
| closer_closing : closer_at K_close false
| closer_closed : closer_at K_done true.

(** The error [NewConnection] makes, in world [w], for a role that is
    none of the three. *)
Definition config_error (w : World) : error := MkError (next_addr w) not_provided None.

(** The states of [NewConnection(ctx, dp)] on connector [d] in world [w]
    when [dp] is none of the three roles. *)
Inductive invalid_reach (d : AWSDB) (dp : DBProxies) (w : World) : St -> Prop :=
| invalid_start :
    invalid_reach d dp w (NewConnection d dp w)
| invalid_switch :
    invalid_reach d dp w
      (MkSt (MkShared d 1 false None [] w) (NC_switch dp) K_wait W_absent W_absent)
| invalid_ret k c :
    closer_at k c ->
    invalid_reach d dp w
      (MkSt (MkShared d 0 c None [] w) NC_retInvalid k W_absent W_absent)
| invalid_returned k c :
    closer_at k c ->
    invalid_reach d dp w
      (MkSt (MkShared d 0 c None [] (MkWorld (N.succ (next_addr w)) (calls w) (ticks w)))
            (M_returned (Some (config_error w))) k W_absent W_absent).

(** A state with one worker, in the slot of its role. *)
Definition solo (dp : DBProxies) (sh : Shared) (m : MainPC) (k : CloserPC) (pc : WorkerPC)
  : St :=
  if String.eqb dp Read then MkSt sh m k pc W_absent else MkSt sh m k W_absent pc.

(** The goroutine that runs [connect] for role [dp]. *)
Definition worker_of (dp : DBProxies) : Tid :=
  if String.eqb dp Read then T_read else T_write.

(** The states of [NewConnection(ctx, dp)] for a single role [dp] whose
    [connect] fails with [e], having set the pool field to [left] and
    brought the world to [wf]. *)
Inductive solo_reach (ctx : Ctx) (d : AWSDB) (dp : DBProxies) (w : World)
          (e : error) (left : option Pool) (wf : World) : St -> Prop :=
| solo_start :
    solo_reach ctx d dp w e left wf (NewConnection d dp w)
| solo_switch :
    solo_reach ctx d dp w e left wf
      (MkSt (MkShared d 1 false None [] w) (NC_switch dp) K_wait W_absent W_absent)
| solo_getValues :
    solo_reach ctx d dp w e left wf
      (solo dp (MkShared d 1 false None [] w) M_range K_wait C_getValues)
| solo_open rs w1 :
    getValuesAWS zero_dbSecret (secretNames dp) w = (Val (rs, None), w1) ->
    solo_reach ctx d dp w e left wf
      (solo dp (MkShared d 1 false None [] w1) M_range K_wait (C_switch rs))
| solo_ping rs w1 p w2 :
    getValuesAWS zero_dbSecret (secretNames dp) w = (Val (rs, None), w1) ->
    dbOpen rs ctx w1 = (Val (Some p, None), w2) ->
    solo_reach ctx d dp w e left wf
      (solo dp (MkShared (set_field dp d (Some p)) 1 false None [] w2) M_range K_wait C_ping)
| solo_send :
    solo_reach ctx d dp w e left wf
      (solo dp (MkShared (set_field dp d left) 1 false None [] wf) M_range K_wait (W_send e))
| solo_deferred :
    solo_reach ctx d dp w e left wf
      (solo dp (MkShared (set_field dp d left) 1 false None [] wf)
            (M_returned (Some e)) K_wait W_deferred)
| solo_exited k c :
    closer_at k c ->
    solo_reach ctx d dp w e left wf
      (solo dp (MkShared (set_field dp d left) 0 c None [] wf)
            (M_returned (Some e)) k W_exited).

End Reachable.

(* ================================================================== *)
(** * Invariants of the wait group and of the goroutines *)
(* ================================================================== *)

Section Barrier.

Context {E : Extern}.

(** What a goroutine running [connect] or [pingProxy] still owes the
    wait group: 1 from its start until its deferred [wg.Done] has run. *)
Definition live (pc : WorkerPC) : Z := if worker_pending pc then 1%Z else 0%Z.

Definition none_started (s : St) : Prop :=
  readpc s = W_absent /\ writepc s = W_absent.

(** What holds in every state of a call of [NewConnection]: the counter
    of the wait group is the number of [connect] goroutines that have not
    finished (plus the units added before they start), and the closing
    goroutine is past [wg.Wait] only when that counter is 0. *)
Definition nc_inv (s : St) : Prop :=
  let sh := shared s in
  match mainpc s with
  | NC_start _ =>
      wg sh = 0%Z /\ closed sh = false /\ closerpc s = K_absent /\ none_started s
  | NC_switch _ =>
      wg sh = 1%Z /\ closed sh = false /\ closerpc s = K_wait /\ none_started s
  | NC_goRead =>
      wg sh = 2%Z /\ closed sh = false /\ closerpc s = K_wait /\ none_started s
  | NC_goWrite =>
      wg sh = (1 + live (readpc s))%Z /\ closed sh = false /\ closerpc s = K_wait
      /\ writepc s = W_absent
  | NC_retInvalid =>
      wg sh = 0%Z /\ closer_at (closerpc s) (closed sh) /\ none_started s
  | M_range =>
      wg sh = (live (readpc s) + live (writepc s))%Z
      /\ closer_at (closerpc s) (closed sh)
      /\ (closerpc s <> K_wait -> wg sh = 0%Z)
  | M_returned r =>
      wg sh = (live (readpc s) + live (writepc s))%Z
      /\ closer_at (closerpc s) (closed sh)
      /\ (closerpc s <> K_wait -> wg sh = 0%Z)
      /\ (r = None -> closed sh = true)
  | _ => False
  end.

(** A bound on the statements a state can still run. *)
Definition main_left (m : MainPC) : nat :=
  match m with
  | NC_start _ => 5 | NC_switch _ => 4 | NC_goRead => 3 | NC_goWrite => 2
  | NC_retInvalid => 2
  | PG_start => 6 | PG_checkReader => 5 | PG_goReader => 4 | PG_checkWriter => 3
  | PG_goWriter => 2
  | M_range => 1 | M_returned _ => 0
  end.

Definition closer_left (k : CloserPC) : nat :=
  match k with K_absent | K_wait => 2 | K_close => 1 | K_done => 0 end.

Definition worker_left (pc : WorkerPC) : nat :=
  match pc with
  | W_absent | C_getValues => 6
  | C_switch _ => 5 | C_ping => 4 | C_log | P_ping => 3
  | W_send _ => 2 | W_deferred => 1 | W_exited => 0
  end.

Definition steps_left (s : St) : nat :=
  (if isNil (crashed (shared s)) then 1 else 0)
  + main_left (mainpc s) + closer_left (closerpc s)
  + worker_left (readpc s) + worker_left (writepc s).

(** The role [role] is among those [NewConnection(ctx, dp)] connects. *)
Definition wants (dp role : DBProxies) : bool :=
  String.eqb dp role || String.eqb dp ReadAndWrite.

(** [connect] for [role] succeeds, whatever was called before it: the
    secret decodes to [rs], [dbOpen] gives the pool [p], and [p] answers
    the liveness check. *)
Record connect_ok (ctx : Ctx) (role : DBProxies) (rs : dbSecret) (p : Pool) : Prop := {
  ok_secret : forall w, exists w1,
      getValuesAWS zero_dbSecret (secretNames role) w = (Val (rs, None), w1);
  ok_open : forall w, exists w1, dbOpen rs ctx w = (Val (Some p, None), w1);
  ok_ping : pool_Ping p ctx = None
}.

(** Where the [connect] of [role] can be when it succeeds, and what the
    pool field of [role] holds there ([d] is the connector at the call). *)
Definition role_ok (role : DBProxies) (wanted : bool) (rs : dbSecret) (p : Pool)
           (d : AWSDB) (pc : WorkerPC) (dbv : AWSDB) : Prop :=
  match pc with
  | W_absent => field role dbv = field role d
  | C_getValues => wanted = true /\ field role dbv = field role d
  | C_switch rs' => wanted = true /\ rs' = rs /\ field role dbv = field role d
  | C_ping | C_log | W_deferred | W_exited => wanted = true /\ field role dbv = Some p
  | _ => False
  end.

Definition started (dp : DBProxies) (s : St) : Prop :=
  (wants dp Read = true -> readpc s <> W_absent)
  /\ (wants dp Write = true -> writepc s <> W_absent).

Definition main_ok (dp : DBProxies) (s : St) : Prop :=
  match mainpc s with
  | NC_start dp' | NC_switch dp' => dp' = dp
  | NC_goRead => dp = ReadAndWrite
  | NC_goWrite => dp = ReadAndWrite /\ readpc s <> W_absent
  | M_range => started dp s
  | M_returned r => r = None /\ started dp s
  | _ => False
  end.

(** What holds in every state of [NewConnection(ctx, dp)] on [d] when
    each [connect] it starts succeeds. *)
Definition ok_inv (d : AWSDB) (dp : DBProxies) (rsR : dbSecret) (pR : Pool)
           (rsW : dbSecret) (pW : Pool) (s : St) : Prop :=
  crashed (shared s) = None
  /\ nc_inv s
  /\ role_ok Read (wants dp Read) rsR pR d (readpc s) (db (shared s))
  /\ role_ok Write (wants dp Write) rsW pW d (writepc s) (db (shared s))
  /\ main_ok dp s.

(** A goroutine is started at most once: the slot is empty where the
    calling goroutine is about to start one. *)
Definition spawn_ok (s : St) : Prop :=
  match mainpc s with
  | NC_start _ | PG_start => closerpc s = K_absent /\ none_started s
  | NC_switch _ | NC_goRead | PG_checkReader | PG_goReader => none_started s
  | NC_goWrite | PG_checkWriter | PG_goWriter => writepc s = W_absent
  | _ => True
  end.

(** A call [p.Ping(ctx)] on a pool of the connector [d]. *)
Definition is_ping_of (ctx : Ctx) (d : AWSDB) (c : Call) : Prop :=
  exists p, c = CallPing p ctx /\ (reader d = Some p \/ writer d = Some p).

(** An error that the liveness check of a pool of [d] returns. *)
Definition probe_error (ctx : Ctx) (d : AWSDB) (e : error) : Prop :=
  exists p, (reader d = Some p \/ writer d = Some p) /\ pool_Ping p ctx = Some e.

(** Where a [pingProxy] of [role] can be: it exists only for a pool that
    is present, and what it sends is what that pool's check returned. *)
Definition probe_ok (ctx : Ctx) (role : DBProxies) (d : AWSDB) (pc : WorkerPC) : Prop :=
  match pc with
  | W_absent => True
  | P_ping | W_deferred | W_exited => exists p, field role d = Some p
  | W_send e => exists p, field role d = Some p /\ pool_Ping p ctx = Some e
  | _ => False
  end.

(** The units added to the wait group whose goroutine is not started yet. *)
Definition pending_add (m : MainPC) : Z :=
  match m with PG_goReader | PG_goWriter => 1%Z | _ => 0%Z end.

(** What holds in every state of a call of [Ping] on [d] in world [w]. *)
Definition ping_inv (ctx : Ctx) (d : AWSDB) (w : World) (s : St) : Prop :=
  let sh := shared s in
  db sh = d
  /\ next_addr (world sh) = next_addr w
  /\ ticks (world sh) = ticks w
  /\ (exists tail, calls (world sh) = calls w ++ tail /\ Forall (is_ping_of ctx d) tail)
  /\ probe_ok ctx Read d (readpc s)
  /\ probe_ok ctx Write d (writepc s)
  /\ wg sh = (pending_add (mainpc s) + live (readpc s) + live (writepc s))%Z
  /\ match mainpc s with
     | PG_start => closerpc s = K_absent /\ closed sh = false /\ none_started s
     | PG_checkReader => closer_at (closerpc s) (closed sh) /\ none_started s
     | PG_goReader =>
         closer_at (closerpc s) (closed sh) /\ none_started s /\ reader d <> None
     | PG_checkWriter => closer_at (closerpc s) (closed sh) /\ writepc s = W_absent
     | PG_goWriter =>
         closer_at (closerpc s) (closed sh) /\ writepc s = W_absent /\ writer d <> None
     | M_range => closer_at (closerpc s) (closed sh)
     | M_returned r =>
         closer_at (closerpc s) (closed sh)
         /\ forall e, r = Some e -> probe_error ctx d e
     | _ => False
     end
  /\ (crashed sh = None
      \/ (crashed sh = Some "send on closed channel"
          /\ exists e, readpc s = W_send e \/ writepc s = W_send e)).

End Barrier.

(* ================================================================== *)
(** * The rest of the package, the examples and the test double *)
(* ================================================================== *)

Section MoreDefs.
Context {E : Extern}.

(** The pools of a connector that are not nil, reader first. *)
Definition pools_of (d : AWSDB) : list Pool :=
  match reader d with Some p => [p] | None => [] end
  ++ match writer d with Some p => [p] | None => [] end.

(** The pool that SQL classified as [proxy] is sent to. *)
Definition selected (d : AWSDB) (proxy : DBProxies) : option Pool :=
  if String.eqb proxy Read then reader d else writer d.

(** The clock never runs backwards. *)
Definition monotone_clock : Prop := forall n, (clock n <= clock (S n))%Z.

End MoreDefs.

(** The test double of db_test.go: [type mockAWSDB struct { db.AWSDB;
    reader, writer pgxmock.PgxPoolIface }]. The methods under test are
    the promoted methods of the embedded [db.AWSDB]. *)
Section Mock.

Context {E : Extern}.

Variable MockPool : Type.

(** [pgxmock.NewPool()] *)
Variable pgxmock_NewPool : option MockPool * option error.

Record mockAWSDB : Type := MkMock {
  embedded : AWSDB;
  mock_reader : option MockPool;
  mock_writer : option MockPool
}.

(** [var d mockAWSDB] *)
Definition zero_mock : mockAWSDB := MkMock (MkAWSDB None None) None None.

(** [func (md *mockAWSDB) NewConnection(ctx, dp) error]: the receiver
    after the call, and the error. *)
Definition mock_NewConnection (md : mockAWSDB) (ctx : Ctx) (dp : DBProxies)
  : M (mockAWSDB * option error) :=
  match pgxmock_NewPool with
  | (_, Some e) => ret (md, Some e)
  | (pool, None) =>
      if String.eqb dp Read then
        ret (MkMock (embedded md) pool (mock_writer md), None)
      else if String.eqb dp Write then
        ret (MkMock (embedded md) (mock_reader md) pool, None)
      else if String.eqb dp ReadAndWrite then
        ret (MkMock (embedded md) pool pool, None)
      else
        e <- errors_New (Read ++ ", " ++ Write ++ ", or " ++ ReadAndWrite
                         ++ " not provided")%string ;;
        ret (md, Some e)
  end.

End Mock.

(** The loop of [getByID] and [get] that writes the column list:
    [for i, c := range cols { sql.WriteString(c); if i < len(cols)-1
    { sql.WriteString(", ") } else { sql.WriteString(" ") } }];
    [n] is [len(cols)], [i] the index of the first element of [cols]. *)
Fixpoint rangeCols (n i : Z) (cols : list string) (sql : string) : string :=
  match cols with
  | [] => sql
  | c :: rest =>
      rangeCols n (i + 1) rest
        (sql ++ c ++ (if (i <? n - 1)%Z then ", " else " "))%string
  end.

(** The SQL text that [getByID] builds in its [strings.Builder], for the
    column list [cols]. *)
Definition selectByID (cols : list string) : string :=
  let sql := "SELECT " in
  let sql := rangeCols (Z.of_nat (length cols)) 0 cols sql in
  let sql := (sql ++ "FROM ccm.customer_profile ")%string in
  (sql ++ "WHERE id = $1")%string.

(** The column list of [getByID]. *)
Definition customer_profile_cols : list string :=
  ["id"; "user_id"; "curp"; "first_name"; "last_name_1"; "birth_date"; "email";
   "created_tms"; "update_tms"].

(* ================================================================== *)
(** * Sample worlds with an AWS outage *)
(* ================================================================== *)

(** Sample worlds with an AWS outage

    The sample world with other answers of the AWS SDK: the region that
    package aws read from AWS_REGION when it was loaded, and the error of
    [config.LoadDefaultConfig]. *)
Module Outage.

Definition with_aws (E : Extern) (region : option string) (load_error : option error)
  : Extern := {|
  Ctx := @Ctx E;
  Any := @Any E;
  TxFunc := @TxFunc E;
  tree_Statement := @tree_Statement E;
  parser_Parse := @parser_Parse E;
  tree_CanWriteData := @tree_CanWriteData E;
  tree_CanModifySchema := @tree_CanModifySchema E;
  Pool := @Pool E;
  Tx := @Tx E;
  CommandTag := @CommandTag E;
  Rows := @Rows E;
  PoolRow := @PoolRow E;
  pool_Begin := @pool_Begin E;
  pool_BeginFunc := @pool_BeginFunc E;
  pool_Exec := @pool_Exec E;
  pool_Query := @pool_Query E;
  pool_QueryRow := @pool_QueryRow E;
  pool_Ping := @pool_Ping E;
  pool_Scan := @pool_Scan E;
  pgxpool_ParseConfig := @pgxpool_ParseConfig E;
  pgxpool_ConnectConfig := @pgxpool_ConnectConfig E;
  AwsCfg := @AwsCfg E;
  awsConfig_Region := region;
  session_NewSession := @session_NewSession E;
  secrets_GetSecretValue := @secrets_GetSecretValue E;
  json_Unmarshal := @json_Unmarshal E;
  config_LoadDefaultConfig := fun c => (fst (@config_LoadDefaultConfig E c), load_error);
  auth_BuildAuthToken := @auth_BuildAuthToken E;
  clock := @clock E
|}.

Definition no_credentials_error : error :=
  MkError 105 "failed to refresh cached credentials" None.

(** AWS_REGION was not set. *)
Definition no_region : Extern := with_aws (Sample.env Sample.healthy) None None.

(** The default configuration cannot be loaded. *)
Definition no_credentials : Extern :=
  with_aws (Sample.env Sample.healthy) (Some "us-west-2") (Some no_credentials_error).

(** A credential record that was never used to mint a token. *)
Definition fresh_secret : dbSecret := MkSecret "u" "postgres" "h" 5432 "db" 0%Z.

(** What the secrets of the sample world decode to. *)
Definition read_secret : dbSecret :=
  MkSecret "core_iam_user_read" "postgres" "db.internal" 5432 "core" 0%Z.

Definition write_secret : dbSecret :=
  MkSecret "core_iam_user_write" "postgres" "db.internal" 5432 "core" 0%Z.

End Outage.

(* ================================================================== *)
(** * Theorems: classification and routing *)
(* ================================================================== *)

Section RoutingTheorems.

Context {E : Extern}.

Lemma rangeStatements_existsb (stmts : list tree_Statement) :
  rangeStatements stmts = (if existsb canWrite stmts then Write else Read, None).
Proof.
  induction stmts as [| s rest IH]; simpl.
  - reflexivity.
  - unfold canWrite at 1.
    destruct (tree_CanWriteData s || tree_CanModifySchema s); simpl.
    + reflexivity.
    + exact IH.
Qed.

Lemma getProxyFromSQL_parsed (sql : string) (stmts : list tree_Statement) :
  parser_Parse sql = (stmts, None) ->
  getProxyFromSQL sql = (if existsb canWrite stmts then Write else Read, None).
Proof.
  intros HP. unfold getProxyFromSQL. rewrite HP. apply rangeStatements_existsb.
Qed.

Lemma getProxyFromSQL_unparsed (sql : string) (stmts : list tree_Statement) (e : error) :
  parser_Parse sql = (stmts, Some e) ->
  getProxyFromSQL sql = ("", Some e).
Proof.
  intros HP. unfold getProxyFromSQL. rewrite HP. reflexivity.
Qed.

Lemma getProxyFromSQL_ok_inv (sql : string) (proxy : DBProxies) :
  getProxyFromSQL sql = (proxy, None) ->
  exists stmts, parser_Parse sql = (stmts, None)
                /\ proxy = (if existsb canWrite stmts then Write else Read).
Proof.
  unfold getProxyFromSQL. destruct (parser_Parse sql) as [stmts [e |]] eqn:HP.
  - discriminate.
  - rewrite rangeStatements_existsb. intros H. exists stmts. split.
    + reflexivity.
    + now inversion H.
Qed.

Lemma getProxyFromSQL_Read_or_Write (sql : string) (proxy : DBProxies) :
  getProxyFromSQL sql = (proxy, None) -> proxy = Read \/ proxy = Write.
Proof.
  intros H. destruct (getProxyFromSQL_ok_inv _ H) as (stmts & _ & ->).
  destruct (existsb canWrite stmts); [right | left]; reflexivity.
Qed.

(** What [Query] does once the SQL is classified as [Read]. *)
Lemma Query_Read (d : AWSDB) (ctx : Ctx) (sql : string) (args : list Any) (w : World) :
  getProxyFromSQL sql = (Read, None) ->
  Query d ctx sql args w =
    match reader d with
    | None => (Val (None, Some ErrReaderNotCreated), w)
    | Some p => (Val (pool_Query p ctx sql args), called w (CallQuery p ctx sql args))
    end.
Proof.
  intros H. unfold Query. rewrite H. simpl. destruct (reader d); reflexivity.
Qed.

Lemma Query_Write (d : AWSDB) (ctx : Ctx) (sql : string) (args : list Any) (w : World) :
  getProxyFromSQL sql = (Write, None) ->
  Query d ctx sql args w =
    match writer d with
    | None => (Val (None, Some ErrWriterNotCreated), w)
    | Some p => (Val (pool_Query p ctx sql args), called w (CallQuery p ctx sql args))
    end.
Proof.
  intros H. unfold Query. rewrite H. simpl. destruct (writer d); reflexivity.
Qed.

Lemma QueryRow_Read (d : AWSDB) (ctx : Ctx) (sql : string) (args : list Any) (w : World) :
  getProxyFromSQL sql = (Read, None) ->
  QueryRow d ctx sql args w =
    match reader d with
    | None => (Val (Some (ProxyErrorRow (proxyError ErrReaderNotCreated))), w)
    | Some p => (Val (option_map PooledRow (pool_QueryRow p ctx sql args)),
                 called w (CallQueryRow p ctx sql args))
    end.
Proof.
  intros H. unfold QueryRow. rewrite H. simpl. destruct (reader d); reflexivity.
Qed.

Lemma QueryRow_Write (d : AWSDB) (ctx : Ctx) (sql : string) (args : list Any) (w : World) :
  getProxyFromSQL sql = (Write, None) ->
  QueryRow d ctx sql args w =
    match writer d with
    | None => (Val (Some (ProxyErrorRow (proxyError ErrWriterNotCreated))), w)
    | Some p => (Val (option_map PooledRow (pool_QueryRow p ctx sql args)),
                 called w (CallQueryRow p ctx sql args))
    end.
Proof.
  intros H. unfold QueryRow. rewrite H. simpl. destruct (writer d); reflexivity.
Qed.

(** What [Query] and [QueryRow] do when the SQL does not parse. *)
Lemma Query_unparsed (d : AWSDB) (ctx : Ctx) (sql : string) (args : list Any) (w : World)
      (stmts : list tree_Statement) (e : error) :
  parser_Parse sql = (stmts, Some e) ->
  Query d ctx sql args w =
    (Val (None, Some (MkError (next_addr w) (parse_context ++ Error e) None)),
     MkWorld (N.succ (next_addr w)) (calls w) (ticks w)).
Proof.
  intros HP. unfold Query. rewrite (getProxyFromSQL_unparsed _ HP). reflexivity.
Qed.

Lemma QueryRow_unparsed (d : AWSDB) (ctx : Ctx) (sql : string) (args : list Any) (w : World)
      (stmts : list tree_Statement) (e : error) :
  parser_Parse sql = (stmts, Some e) ->
  QueryRow d ctx sql args w =
    (Val (Some (ProxyErrorRow (proxyError
            (MkError (next_addr w) (parse_context ++ Error e) None)))),
     MkWorld (N.succ (next_addr w)) (calls w) (ticks w)).
Proof.
  intros HP. unfold QueryRow. rewrite (getProxyFromSQL_unparsed _ HP). reflexivity.
Qed.

(** C1. When the SQL parses, [getProxyFromSQL] answers [Write] if some
    statement of the batch can write rows or modify the schema and [Read]
    if none can. When it does not parse, the answer is the parser's error
    with the empty role, which is neither [Read] nor [Write], and neither
    [Query] nor [QueryRow] then calls a pool. *)
Theorem getProxyFromSQL_classifies (sql : string) :
  match parser_Parse sql with
  | (stmts, None) =>
      getProxyFromSQL sql = (if existsb canWrite stmts then Write else Read, None)
  | (_, Some e) =>
      getProxyFromSQL sql = ("", Some e)
      /\ "" <> Read /\ "" <> Write
      /\ forall (d : AWSDB) (ctx : Ctx) (args : list Any) (w : World),
           calls (snd (Query d ctx sql args w)) = calls w
           /\ calls (snd (QueryRow d ctx sql args w)) = calls w
  end.
Proof.
  destruct (parser_Parse sql) as [stmts [e |]] eqn:HP.
  - split; [exact (getProxyFromSQL_unparsed _ HP) |].
    split; [discriminate |]. split; [discriminate |].
    intros d ctx args w.
    rewrite (Query_unparsed d ctx _ args w HP), (QueryRow_unparsed d ctx _ args w HP).
    split; reflexivity.
  - exact (getProxyFromSQL_parsed _ HP).
Qed.

(** C2. For SQL classified as [Write]: with no writer pool, [Query]
    returns [ErrWriterNotCreated], [QueryRow] returns the [DBProxyError]
    row that holds it, [Scan] on the row of [QueryRow] returns it, and no
    pool is called; with a writer pool, both make exactly one call, to
    that pool, and return what it returns, and [Scan] on the row is the
    [Scan] of the pool's row. The same holds for [Read], the reader pool
    and [ErrReaderNotCreated]. The two sentinels are different errors:
    [errors.Is] does not take one for the other. *)
Theorem Query_QueryRow_route (d : AWSDB) (ctx : Ctx) (sql : string) (args : list Any)
        (w : World) (proxy : DBProxies) :
  getProxyFromSQL sql = (proxy, None) ->
  (proxy = Write ->
     match writer d with
     | None =>
         Query d ctx sql args w = (Val (None, Some ErrWriterNotCreated), w)
         /\ QueryRow d ctx sql args w
            = (Val (Some (ProxyErrorRow (MkDBProxyError (Some ErrWriterNotCreated)))), w)
         /\ forall dest,
              QueryRow_Scan d ctx sql args dest w = (Val (Some ErrWriterNotCreated), w)
     | Some p =>
         Query d ctx sql args w
         = (Val (pool_Query p ctx sql args),
            MkWorld (next_addr w) (calls w ++ [CallQuery p ctx sql args]) (ticks w))
         /\ QueryRow d ctx sql args w
            = (Val (option_map PooledRow (pool_QueryRow p ctx sql args)),
               MkWorld (next_addr w) (calls w ++ [CallQueryRow p ctx sql args]) (ticks w))
         /\ forall r dest,
              pool_QueryRow p ctx sql args = Some r ->
              QueryRow_Scan d ctx sql args dest w
              = (Val (pool_Scan r dest),
                 MkWorld (next_addr w) (calls w ++ [CallQueryRow p ctx sql args]) (ticks w))
     end)
  /\ (proxy = Read ->
     match reader d with
     | None =>
         Query d ctx sql args w = (Val (None, Some ErrReaderNotCreated), w)
         /\ QueryRow d ctx sql args w
            = (Val (Some (ProxyErrorRow (MkDBProxyError (Some ErrReaderNotCreated)))), w)
         /\ forall dest,
              QueryRow_Scan d ctx sql args dest w = (Val (Some ErrReaderNotCreated), w)
     | Some p =>
         Query d ctx sql args w
         = (Val (pool_Query p ctx sql args),
            MkWorld (next_addr w) (calls w ++ [CallQuery p ctx sql args]) (ticks w))
         /\ QueryRow d ctx sql args w
            = (Val (option_map PooledRow (pool_QueryRow p ctx sql args)),
               MkWorld (next_addr w) (calls w ++ [CallQueryRow p ctx sql args]) (ticks w))
         /\ forall r dest,
              pool_QueryRow p ctx sql args = Some r ->
              QueryRow_Scan d ctx sql args dest w
              = (Val (pool_Scan r dest),
                 MkWorld (next_addr w) (calls w ++ [CallQueryRow p ctx sql args]) (ticks w))
     end)
  /\ errors_Is ErrWriterNotCreated ErrReaderNotCreated = false
  /\ errors_Is ErrReaderNotCreated ErrWriterNotCreated = false
  /\ Error ErrReaderNotCreated = "reader pool not created"
  /\ Error ErrWriterNotCreated = "writer pool not created".
Proof.
  intros H. split; [| split; [| repeat split]]; intros ->.
  - unfold QueryRow_Scan.
    rewrite (Query_Write d ctx _ args w H), (QueryRow_Write d ctx _ args w H).
    destruct (writer d) as [p |].
    + split; [reflexivity |]. split; [reflexivity |].
      intros r dest Hr. rewrite Hr. reflexivity.
    + repeat split.
  - unfold QueryRow_Scan.
    rewrite (Query_Read d ctx _ args w H), (QueryRow_Read d ctx _ args w H).
    destruct (reader d) as [p |].
    + split; [reflexivity |]. split; [reflexivity |].
      intros r dest Hr. rewrite Hr. reflexivity.
    + repeat split.
Qed.

(** C3. [Exec], [Begin] and [BeginFunc] look at the writer pool only,
    whatever the SQL or the work: with no writer pool each returns
    [ErrWriterNotCreated] and leaves the world as it was (no pool is
    called); with a writer pool each makes its one call to that pool. *)
Theorem Exec_Begin_BeginFunc_writer (d : AWSDB) (ctx : Ctx) (sql : string)
        (args : list Any) (f : TxFunc) (w : World) :
  match writer d with
  | None =>
      Exec d ctx sql args w = (Val (None, Some ErrWriterNotCreated), w)
      /\ Begin d ctx w = (Val (None, Some ErrWriterNotCreated), w)
      /\ BeginFunc d ctx f w = (Val (Some ErrWriterNotCreated), w)
  | Some p =>
      Exec d ctx sql args w
      = (Val (pool_Exec p ctx sql args), called w (CallExec p ctx sql args))
      /\ Begin d ctx w = (Val (pool_Begin p ctx), called w (CallBegin p ctx))
      /\ BeginFunc d ctx f w
         = (Val (pool_BeginFunc p ctx f), called w (CallBeginFunc p ctx f))
  end.
Proof.
  unfold Exec, Begin, BeginFunc. destruct (writer d); simpl; repeat split; reflexivity.
Qed.

(** C4. Whenever the SQL does not parse or the selected pool is nil,
    [QueryRow] does not panic, calls no pool and returns a row that is not
    nil: a [DBProxyError] whose [Scan] returns the error in question (the
    new error quoting the parser, or the sentinel of the missing pool). *)
Theorem QueryRow_defers_error (d : AWSDB) (ctx : Ctx) (sql : string) (args : list Any)
        (w : World) (e : error) :
  QueryRowFails d sql w e ->
  exists w',
    QueryRow d ctx sql args w = (Val (Some (ProxyErrorRow (proxyError e))), w')
    /\ calls w' = calls w
    /\ forall dest, Scan (Some (ProxyErrorRow (proxyError e))) dest = Val (Some e).
Proof.
  intros [stmts e0 HP | HR Hnil | HW Hnil].
  - eexists. rewrite (QueryRow_unparsed d ctx _ args w HP).
    split; [reflexivity |]. split; reflexivity.
  - exists w. rewrite (QueryRow_Read d ctx _ args w HR), Hnil.
    split; [reflexivity |]. split; reflexivity.
  - exists w. rewrite (QueryRow_Write d ctx _ args w HW), Hnil.
    split; [reflexivity |]. split; reflexivity.
Qed.

(** An error object made by the call is not found by [errors.Is] along the
    chain of an object that has no [Unwrap]. *)
Lemma errors_Is_fresh (a : N) (s : string) (e : error) :
  (err_addr e < a)%N -> errors_Is (MkError a s None) e = false.
Proof.
  intros Hlt. simpl. apply orb_false_intro; [| reflexivity]. apply N.eqb_neq. lia.
Qed.

(** C8, as the code has it. A parse error reaches the caller of [Query]
    (and, through [Scan], of [QueryRow]) as a new error object whose text
    is the context followed by the parser's message; the object has no
    [Unwrap], so [errors.Is] does not find the parser's error [e] in it
    ([e] being an object that existed before the call). What the selected
    pool returns, errors included, is handed back as it is, with no text
    added. *)
Theorem Query_parse_error_text_only (d : AWSDB) (ctx : Ctx) (sql : string)
        (args : list Any) (w : World) :
  (forall (stmts : list tree_Statement) (e : error),
     parser_Parse sql = (stmts, Some e) ->
     (err_addr e < next_addr w)%N ->
     exists r,
       fst (Query d ctx sql args w) = Val (None, Some r)
       /\ fst (QueryRow d ctx sql args w) = Val (Some (ProxyErrorRow (proxyError r)))
       /\ Scan (Some (ProxyErrorRow (proxyError r))) [] = Val (Some r)
       /\ Error r = (parse_context ++ Error e)%string
       /\ Unwrap r = None
       /\ errors_Is r e = false)
  /\ (forall (proxy : DBProxies) (p : Pool),
       getProxyFromSQL sql = (proxy, None) ->
       (if String.eqb proxy Read then reader d else writer d) = Some p ->
       fst (Query d ctx sql args w) = Val (pool_Query p ctx sql args)
       /\ fst (QueryRow d ctx sql args w)
          = Val (option_map PooledRow (pool_QueryRow p ctx sql args))).
Proof.
  split.
  - intros stmts e HP Hlt. eexists.
    rewrite (Query_unparsed d ctx _ args w HP), (QueryRow_unparsed d ctx _ args w HP).
    simpl. repeat split. apply errors_Is_fresh. exact Hlt.
  - intros proxy p H Hp.
    destruct (getProxyFromSQL_Read_or_Write _ H) as [-> | ->]; simpl in Hp.
    + rewrite (Query_Read d ctx _ args w H), (QueryRow_Read d ctx _ args w H), Hp.
      split; reflexivity.
    + rewrite (Query_Write d ctx _ args w H), (QueryRow_Write d ctx _ args w H), Hp.
      split; reflexivity.
Qed.

(** C10. SQL that [getProxyFromSQL] accepts is classified as [Read] or as
    [Write] and nothing else, so [Query] and [QueryRow] take one of their
    two routed branches: the sentinel of the missing pool, or the call
    to the selected pool. The branch that makes the error "error getting
    db proxy" is not taken. *)
Theorem getProxyFromSQL_role_is_Read_or_Write (sql : string) (proxy : DBProxies) :
  getProxyFromSQL sql = (proxy, None) ->
  (proxy = Read \/ proxy = Write)
  /\ forall (d : AWSDB) (ctx : Ctx) (args : list Any) (w : World),
       let pool := if String.eqb proxy Read then reader d else writer d in
       let sentinel := if String.eqb proxy Read then ErrReaderNotCreated
                       else ErrWriterNotCreated in
       Query d ctx sql args w =
         match pool with
         | None => (Val (None, Some sentinel), w)
         | Some p => (Val (pool_Query p ctx sql args), called w (CallQuery p ctx sql args))
         end
       /\ QueryRow d ctx sql args w =
         match pool with
         | None => (Val (Some (ProxyErrorRow (proxyError sentinel))), w)
         | Some p => (Val (option_map PooledRow (pool_QueryRow p ctx sql args)),
                      called w (CallQueryRow p ctx sql args))
         end.
Proof.
  intros H. pose proof (getProxyFromSQL_Read_or_Write _ H) as Hrw.
  split; [exact Hrw |]. intros d ctx args w.
  destruct Hrw as [-> | ->]; simpl.
  - rewrite (Query_Read d ctx _ args w H), (QueryRow_Read d ctx _ args w H).
    split; reflexivity.
  - rewrite (Query_Write d ctx _ args w H), (QueryRow_Write d ctx _ args w H).
    split; reflexivity.
Qed.

End RoutingTheorems.

(* ================================================================== *)
(** * Theorems: the token refresh callback *)
(* ================================================================== *)

Section TokenTheorems.

Context {E : Extern}.

Lemma GetRDSAuthToken_calls (ctx : Ctx) (host user : string) (port : Z) (w : World) :
  exists rest,
    calls (snd (GetRDSAuthToken ctx host user port w))
    = calls w ++ CallLoadDefaultConfig ctx :: rest
    /\ ticks (snd (GetRDSAuthToken ctx host user port w)) = ticks w.
Proof.
  unfold GetRDSAuthToken, bind, emit, ret, panic. simpl.
  destruct (config_LoadDefaultConfig ctx) as [cfg [e |]]; simpl.
  - exists []. split; reflexivity.
  - destruct awsConfig_Region as [region |]; simpl.
    + eexists. rewrite <- app_assoc. simpl. split; reflexivity.
    + exists []. split; reflexivity.
Qed.

Lemma BeforeConnect_unfold (ctx : Ctx) (ds : dbSecret) (c : Ctx) (cc : ConnConfig) (w : World) :
  BeforeConnect ctx ds c cc w =
    if After (clock (ticks w)) (exp ds) then
      match GetRDSAuthToken ctx (Host ds) (UserName ds) (Port ds) (ticked w) with
      | (Val (tok, None), w1) =>
          (Val (set_exp ds (Add (clock (ticks w1)) (time_Second * 890)%Z),
                MkConnConfig tok, None), ticked w1)
      | (Val (tok, Some e), w1) => (Val (ds, MkConnConfig tok, Some e), w1)
      | (Panic why, w1) => (Panic why, w1)
      end
    else (Val (ds, cc, None), ticked w).
Proof.
  unfold BeforeConnect, bind, time_Now, ticked. simpl.
  destruct (After (clock (ticks w)) (exp ds)); [| reflexivity].
  destruct (GetRDSAuthToken ctx (Host ds) (UserName ds) (Port ds) _) as [[[tok [e |]] | why] w1];
    reflexivity.
Qed.

Lemma refresh_window :
  (time_Second * 890 = token_lifetime - safety_margin)%Z.
Proof. reflexivity. Qed.

(** [dbOpen] asks for no token itself: its only library call is
    [ConnectConfig], with the refresh closure over [ds] installed. *)
Lemma dbOpen_calls (ds : dbSecret) (ctx : Ctx) (w : World) :
  calls (snd (dbOpen ds ctx w)) = calls w
  \/ exists cfg, calls (snd (dbOpen ds ctx w)) = calls w ++ [CallConnectConfig ctx cfg]
                 /\ BeforeConnect_hook cfg = Some (RefreshToken ctx ds).
Proof.
  unfold dbOpen.
  destruct (pgxpool_ParseConfig _) as [[cfg |] [e |]]; simpl; try (left; reflexivity).
  right. eexists. split; reflexivity.
Qed.

Lemma dbOpen_token_requests (ds : dbSecret) (ctx : Ctx) (w : World) :
  token_requests (snd (dbOpen ds ctx w)) = token_requests w.
Proof.
  unfold token_requests.
  destruct (dbOpen_calls ds ctx w) as [H | (cfg & H & _)]; rewrite H; [reflexivity |].
  rewrite filter_app. cbn. apply app_nil_r.
Qed.

(** The callback at a clock reading that is after the cached expiry. *)
Lemma BeforeConnect_expired (ctx : Ctx) (ds : dbSecret) (c : Ctx) (cc : ConnConfig)
      (w : World) :
  (exp ds < clock (ticks w))%Z ->
  (exists rest, calls (snd (BeforeConnect ctx ds c cc w))
                = calls w ++ CallLoadDefaultConfig ctx :: rest)
  /\ BeforeConnect ctx ds c cc w =
       match GetRDSAuthToken ctx (Host ds) (UserName ds) (Port ds) (ticked w) with
       | (Val (tok, None), w1) =>
           (Val (MkSecret (UserName ds) (Engine ds) (Host ds) (Port ds) (DBName ds)
                          (clock (ticks w1) + 890000000000)%Z,
                 MkConnConfig tok, None), ticked w1)
       | (Val (tok, Some e), w1) => (Val (ds, MkConnConfig tok, Some e), w1)
       | (Panic why, w1) => (Panic why, w1)
       end.
Proof.
  intros Hlt. rewrite BeforeConnect_unfold.
  replace (After (clock (ticks w)) (exp ds)) with true
    by (symmetry; apply Z.ltb_lt; exact Hlt).
  split.
  - destruct (GetRDSAuthToken_calls ctx (Host ds) (UserName ds) (Port ds) (ticked w))
      as (rest & Hc & _).
    exists rest.
    destruct (GetRDSAuthToken ctx (Host ds) (UserName ds) (Port ds) (ticked w))
      as [[[tok [e |]] | why] w1]; simpl in *; exact Hc.
  - destruct (GetRDSAuthToken ctx (Host ds) (UserName ds) (Port ds) (ticked w))
      as [[[tok [e |]] | why] w1]; reflexivity.
Qed.

(** The callback at a clock reading that is not after the cached expiry. *)
Lemma BeforeConnect_cached (ctx : Ctx) (ds : dbSecret) (c : Ctx) (cc : ConnConfig)
      (w : World) :
  (clock (ticks w) <= exp ds)%Z ->
  BeforeConnect ctx ds c cc w
  = (Val (ds, cc, None), MkWorld (next_addr w) (calls w) (S (ticks w))).
Proof.
  intros Hle. rewrite BeforeConnect_unfold.
  replace (After (clock (ticks w)) (exp ds)) with false
    by (symmetry; apply Z.ltb_ge; exact Hle).
  reflexivity.
Qed.

(** C9. [dbOpen] requests no token: it hands the pool a configuration
    whose password is the placeholder and whose [BeforeConnect] is the
    callback, and calling that stored closure is calling the callback.
    The callback reads the clock. When the reading is not after the cached
    expiry it requests nothing and changes neither the record nor the
    connection configuration. When the reading is after the cached expiry
    it requests a token; if that succeeds the password of the connection
    is the token and the cached expiry becomes the clock reading taken
    after the request plus 890 seconds (890 000 000 000 ns), which is the
    lifetime of 15 minutes minus the margin of 10 seconds, the rest of the
    record staying as it was; with that record the callback requests
    nothing as long as the clock is not past that expiry, which is less
    than 15 minutes after the reading, and requests a token again once
    the clock is past it. If the request fails, the error is returned and
    the cached expiry is not moved. *)
Theorem BeforeConnect_refreshes_token (ctx : Ctx) (ds : dbSecret) (c : Ctx)
        (cc : ConnConfig) (w : World) :
  token_requests (snd (dbOpen ds ctx w)) = token_requests w
  /\ match pgxpool_ParseConfig
             ("host=" ++ Host ds ++ " port=" ++ fmt_d (Port ds) ++ " user=" ++ UserName ds
              ++ " password=foo dbname=" ++ DBName ds)%string with
     | (Some cfg, None) =>
         let cfg' := MkPoolConfig (ConnString cfg) true 59000000000%Z
                       (Some (RefreshToken ctx ds)) (Some RegisterTypes) in
         dbOpen ds ctx w
         = (Val (pgxpool_ConnectConfig ctx cfg'),
            MkWorld (next_addr w) (calls w ++ [CallConnectConfig ctx cfg']) (ticks w))
     | (None, None) => dbOpen ds ctx w = (Panic nil_deref, w)
     | (_, Some e) => dbOpen ds ctx w = (Val (None, Some e), w)
     end
  /\ call_hook (RefreshToken ctx ds) c cc w
     = match BeforeConnect ctx ds c cc w with
       | (Val (ds', cc', oe), w') => (Val (RefreshToken ctx ds', cc', oe), w')
       | (Panic why, w') => (Panic why, w')
       end
  /\ ((clock (ticks w) <= exp ds)%Z ->
      BeforeConnect ctx ds c cc w
      = (Val (ds, cc, None), MkWorld (next_addr w) (calls w) (S (ticks w))))
  /\ ((exp ds < clock (ticks w))%Z ->
      (exists rest, calls (snd (BeforeConnect ctx ds c cc w))
                    = calls w ++ CallLoadDefaultConfig ctx :: rest)
      /\ match GetRDSAuthToken ctx (Host ds) (UserName ds) (Port ds)
                 (MkWorld (next_addr w) (calls w) (S (ticks w))) with
         | (Val (tok, None), w1) =>
             let minted := clock (ticks w1) in
             let ds' := MkSecret (UserName ds) (Engine ds) (Host ds) (Port ds) (DBName ds)
                                 (minted + 890000000000)%Z in
             BeforeConnect ctx ds c cc w
             = (Val (ds', MkConnConfig tok, None),
                MkWorld (next_addr w1) (calls w1) (S (ticks w1)))
             /\ (exp ds' = minted + (token_lifetime - safety_margin))%Z
             /\ token_lifetime = 900000000000%Z
             /\ safety_margin = 10000000000%Z
             /\ (forall (c2 : Ctx) (cc2 : ConnConfig) (w2 : World),
                   (clock (ticks w2) <= exp ds')%Z ->
                   (clock (ticks w2) < minted + token_lifetime)%Z
                   /\ BeforeConnect ctx ds' c2 cc2 w2
                      = (Val (ds', cc2, None),
                         MkWorld (next_addr w2) (calls w2) (S (ticks w2))))
             /\ (forall (c2 : Ctx) (cc2 : ConnConfig) (w2 : World),
                   (exp ds' < clock (ticks w2))%Z ->
                   exists rest,
                     calls (snd (BeforeConnect ctx ds' c2 cc2 w2))
                     = calls w2 ++ CallLoadDefaultConfig ctx :: rest)
         | (Val (tok, Some e), w1) =>
             BeforeConnect ctx ds c cc w = (Val (ds, MkConnConfig tok, Some e), w1)
         | (Panic why, w1) =>
             BeforeConnect ctx ds c cc w = (Panic why, w1)
         end).
Proof.
  split; [apply dbOpen_token_requests |]. split; [| split; [| split]].
  - unfold dbOpen. cbn.
    destruct (pgxpool_ParseConfig _) as [[cfg |] [e |]]; reflexivity.
  - unfold call_hook, bind.
    destruct (BeforeConnect ctx ds c cc w) as [[[[ds' cc'] oe] | why] w']; reflexivity.
  - exact (@BeforeConnect_cached ctx ds c cc w).
  - intros Hlt. destruct (@BeforeConnect_expired ctx ds c cc w Hlt) as (Hcalls & Heq).
    split; [exact Hcalls |]. fold (ticked w).
    destruct (GetRDSAuthToken ctx (Host ds) (UserName ds) (Port ds) (ticked w))
      as [[[tok [e |]] | why] w1]; try exact Heq.
    cbv zeta. split; [exact Heq |]. split; [reflexivity |].
    split; [reflexivity |]. split; [reflexivity |]. split.
    + intros c2 cc2 w2 Hle. split.
      * cbn in Hle. unfold token_lifetime, time_Minute, time_Second. lia.
      * exact (@BeforeConnect_cached ctx _ c2 cc2 w2 Hle).
    + intros c2 cc2 w2 Hlt2.
      exact (proj1 (@BeforeConnect_expired ctx _ c2 cc2 w2 Hlt2)).
Qed.

End TokenTheorems.

(* ================================================================== *)
(** * Theorems: the goroutines of NewConnection *)
(* ================================================================== *)

Section GoroutineTheorems.

Context {E : Extern}.

Variable ctx : Ctx.

Lemma run_invariant (Inv : St -> Prop) :
  (forall t s s', Inv s -> step ctx t s = Some s' -> Inv s') ->
  forall sched s s', Inv s -> run ctx sched s = Some s' -> Inv s'.
Proof.
  intros Hstep sched. induction sched as [| t rest IH]; intros s s' Hs Hrun; simpl in Hrun.
  - now inversion Hrun; subst.
  - destruct (step ctx t s) as [s1 |] eqn:H1; [| discriminate].
    exact (IH _ _ (Hstep _ _ _ Hs H1) Hrun).
Qed.

(** ** A role that is none of the three *)

Section InvalidRole.

Variables (d : AWSDB) (dp : DBProxies) (w : World).

Hypothesis not_Read : dp <> Read.
Hypothesis not_Write : dp <> Write.
Hypothesis not_ReadAndWrite : dp <> ReadAndWrite.

Lemma invalid_reach_step (t : Tid) (s s' : St) :
  invalid_reach d dp w s -> step ctx t s = Some s' -> invalid_reach d dp w s'.
Proof.
  apply String.eqb_neq in not_Read, not_Write, not_ReadAndWrite.
  intros Hs Hstep.
  destruct Hs as [| | k c Hk | k c Hk]; try destruct Hk; destruct t;
    cbn in Hstep; try discriminate;
    try rewrite not_Read, not_Write, not_ReadAndWrite in Hstep;
    cbn in Hstep; inversion Hstep; subst; clear Hstep;
    try (constructor; constructor); try constructor.
Qed.

Lemma invalid_reach_run (sched : list Tid) (s : St) :
  run ctx sched (NewConnection d dp w) = Some s -> invalid_reach d dp w s.
Proof.
  apply (run_invariant (invalid_reach d dp w) invalid_reach_step). constructor.
Qed.

End InvalidRole.

(** C5. For a role that is none of [Read], [Write] and [ReadAndWrite],
    the three statements of the calling goroutine alone return the
    configuration error; and however the goroutines are scheduled, no
    library is called (no secret is fetched, no pool opened or pinged),
    no [connect] is started, the connector is untouched, and the only
    value the call returns is that error. *)
Theorem NewConnection_invalid_role (d : AWSDB) (dp : DBProxies) (w : World) :
  dp <> Read -> dp <> Write -> dp <> ReadAndWrite ->
  (exists s, run ctx [T_main; T_main; T_main] (NewConnection d dp w) = Some s
             /\ returned s = Some (Some (config_error w))
             /\ Error (config_error w) = "read, write, or readAndWrite not provided"
             /\ calls (world (shared s)) = calls w)
  /\ forall sched s,
       run ctx sched (NewConnection d dp w) = Some s ->
       calls (world (shared s)) = calls w
       /\ db (shared s) = d
       /\ readpc s = W_absent /\ writepc s = W_absent
       /\ crashed (shared s) = None
       /\ (returned s = None -> exists s', step ctx T_main s = Some s')
       /\ forall r, returned s = Some r -> r = Some (config_error w).
Proof.
  intros HR HW HRW. split.
  - pose proof HR as HR'. pose proof HW as HW'. pose proof HRW as HRW'.
    apply String.eqb_neq in HR', HW', HRW'.
    eexists. cbn. rewrite HR', HW', HRW'. cbn. repeat split.
  - intros sched s Hrun.
    apply invalid_reach_run in Hrun; try assumption.
    pose proof HR as HR'. pose proof HW as HW'. pose proof HRW as HRW'.
    apply String.eqb_neq in HR', HW', HRW'.
    destruct Hrun as [| | k c Hk | k c Hk]; cbn; repeat split; try discriminate;
      try (intros _; eexists; rewrite ?HR', ?HW', ?HRW'; reflexivity).
    intros r Hr. now inversion Hr.
Qed.

(** ** A single role whose connect fails *)

Local Arguments getValuesAWS : simpl never.
Local Arguments dbOpen : simpl never.

(** Two equations about the same library call agree. *)
Ltac same_call :=
  repeat match goal with
  | H1 : ?x = _, H2 : ?x = _ |- _ => rewrite H1 in H2; inversion H2; subst; clear H2
  end.

(** Feed the known answers of the libraries to the statement that runs. *)
Ltac answer_hyp :=
  repeat match goal with
  | H : ?x = _, Hstep : context [?x] |- _ => rewrite H in Hstep; cbn in Hstep
  end.

Ltac answer_goal :=
  repeat match goal with
  | H : ?x = _ |- context [?x] => rewrite H; cbn
  end.

Ltac close_reach :=
  cbn;
  match goal with
  | |- solo_reach ?c ?d ?dp ?w ?e ?l ?wf _ =>
      solve [ exact (@solo_start _ c d dp w e l wf)
            | exact (@solo_switch _ c d dp w e l wf)
            | exact (@solo_getValues _ c d dp w e l wf)
            | eapply (@solo_open _ c d dp w e l wf); eassumption
            | eapply (@solo_ping _ c d dp w e l wf); eassumption
            | exact (@solo_send _ c d dp w e l wf)
            | exact (@solo_deferred _ c d dp w e l wf)
            | apply (@solo_exited _ c d dp w e l wf); constructor ]
  end.

Ltac drive :=
  cbn in *; try discriminate; same_call; answer_hyp; try discriminate;
  match goal with
  | Hstep : Some _ = Some _ |- _ => inversion Hstep; subst; clear Hstep
  end;
  close_reach.

Lemma solo_reach_step (d : AWSDB) (dp : DBProxies) (w : World) (e : error)
      (left : option Pool) (wf : World) (t : Tid) (s s' : St) :
  dp = Read \/ dp = Write ->
  field dp d = None ->
  connect_fails ctx dp w e left wf ->
  solo_reach ctx d dp w e left wf s ->
  step ctx t s = Some s' ->
  solo_reach ctx d dp w e left wf s'.
Proof.
  intros Hrole Habsent Hfails Hs Hstep.
  destruct d as [rd wr].
  destruct Hrole as [-> | ->]; cbn in Habsent; subst.
  all: destruct Hfails as [ds e w1 Hg | rs w1 e w2 Hg Ho | rs w1 p w2 e Hg Ho Hp];
    destruct Hs as [| | | rs' w1' Hg' | rs' w1' p' w2' Hg' Ho' | | | k c Hk];
    try destruct Hk; destruct t; drive.
Qed.

Lemma solo_reach_run (d : AWSDB) (dp : DBProxies) (w : World) (e : error)
      (left : option Pool) (wf : World) (sched : list Tid) (s : St) :
  dp = Read \/ dp = Write ->
  field dp d = None ->
  connect_fails ctx dp w e left wf ->
  run ctx sched (NewConnection d dp w) = Some s ->
  solo_reach ctx d dp w e left wf s.
Proof.
  intros Hrole Habsent Hfails.
  apply (run_invariant (solo_reach ctx d dp w e left wf)).
  - intros t s0 s1. apply solo_reach_step; assumption.
  - apply solo_start.
Qed.

(** Until the call has returned, some goroutine can move. *)
Lemma solo_reach_progress (d : AWSDB) (dp : DBProxies) (w : World) (e : error)
      (left : option Pool) (wf : World) (s : St) :
  dp = Read \/ dp = Write ->
  field dp d = None ->
  connect_fails ctx dp w e left wf ->
  solo_reach ctx d dp w e left wf s ->
  returned s = None ->
  exists t s', step ctx t s = Some s'.
Proof.
  intros Hrole Habsent Hfails Hs Hret.
  destruct d as [rd wr].
  destruct Hrole as [-> | ->]; cbn in Habsent; subst.
  all: destruct Hfails as [ds e w1 Hg | rs w1 e w2 Hg Ho | rs w1 p w2 e Hg Ho Hp];
    destruct Hs as [| | | rs' w1' Hg' | rs' w1' p' w2' Hg' Ho' | | | k c Hk];
    cbn in *; try discriminate; same_call;
    first [ solve [exists T_main; eexists; cbn; answer_goal; reflexivity]
          | solve [exists T_read; eexists; cbn; answer_goal; reflexivity]
          | solve [exists T_write; eexists; cbn; answer_goal; reflexivity] ].
Qed.

(** The call does return: main twice, then the worker up to its send. *)
Lemma solo_returns (d : AWSDB) (dp : DBProxies) (w : World) (e : error)
      (left : option Pool) (wf : World) :
  dp = Read \/ dp = Write ->
  field dp d = None ->
  connect_fails ctx dp w e left wf ->
  exists n s,
    run ctx (T_main :: T_main :: repeat (worker_of dp) n) (NewConnection d dp w) = Some s
    /\ returned s = Some (Some e).
Proof.
  intros Hrole Habsent Hfails.
  destruct d as [rd wr].
  destruct Hrole as [-> | ->]; cbn in Habsent; subst.
  all: destruct Hfails as [ds e w1 Hg | rs w1 e w2 Hg Ho | rs w1 p w2 e Hg Ho Hp];
    cbn in *;
    first [ solve [exists 2; eexists; cbn; answer_goal; split; reflexivity]
          | solve [exists 3; eexists; cbn; answer_goal; split; reflexivity]
          | solve [exists 4; eexists; cbn; answer_goal; split; reflexivity] ].
Qed.

(** Neither reading the secret nor opening the pool closes a pool. *)
Lemma closes_called (w : World) (c : Call) :
  is_close c = false -> closes (called w c) = closes w.
Proof.
  intros Hc. unfold closes, called. cbn. rewrite filter_app. cbn. rewrite Hc.
  apply app_nil_r.
Qed.

Lemma getValuesAWS_closes (ds : dbSecret) (name : string) (w : World) :
  closes (snd (getValuesAWS ds name w)) = closes w.
Proof.
  unfold getValuesAWS, GetSecret, bind, emit, errors_New, ret, panic.
  destruct session_NewSession as [e |]; [reflexivity |].
  destruct (secrets_GetSecretValue name) as [[str |] [e |]]; cbn;
    try destruct (json_Unmarshal str ds) as [ds' [e' |]]; cbn;
    exact (@closes_called w (CallGetSecretValue name) eq_refl).
Qed.

Lemma dbOpen_closes (ds : dbSecret) (c : Ctx) (w : World) :
  closes (snd (dbOpen ds c w)) = closes w.
Proof.
  unfold dbOpen, bind, emit, ret, panic.
  destruct (pgxpool_ParseConfig _) as [[cfg |] [e |]]; cbn; try reflexivity.
  exact (@closes_called w (CallConnectConfig c _) eq_refl).
Qed.

Lemma connect_fails_closes (dp : DBProxies) (w : World) (e : error)
      (left : option Pool) (wf : World) :
  connect_fails ctx dp w e left wf -> closes wf = closes w.
Proof.
  intros [ds e' w1 Hg | rs w1 e' w2 Hg Ho | rs w1 p w2 e' Hg Ho Hp].
  - rewrite <- (getValuesAWS_closes zero_dbSecret (secretNames dp) w), Hg. reflexivity.
  - rewrite <- (getValuesAWS_closes zero_dbSecret (secretNames dp) w), Hg. cbn.
    rewrite <- (dbOpen_closes rs ctx w1), Ho. reflexivity.
  - rewrite (@closes_called w2 (CallPing p ctx) eq_refl).
    rewrite <- (getValuesAWS_closes zero_dbSecret (secretNames dp) w), Hg. cbn.
    rewrite <- (dbOpen_closes rs ctx w1), Ho. reflexivity.
Qed.

Lemma solo_reach_closes (d : AWSDB) (dp : DBProxies) (w : World) (e : error)
      (left : option Pool) (wf : World) (s : St) :
  dp = Read \/ dp = Write ->
  connect_fails ctx dp w e left wf ->
  solo_reach ctx d dp w e left wf s ->
  closes (world (shared s)) = closes w.
Proof.
  intros Hrole Hfails Hs.
  pose proof (connect_fails_closes Hfails) as Hwf.
  destruct Hrole as [-> | ->];
    destruct Hs as [| | | rs' w1' Hg' | rs' w1' p' w2' Hg' Ho' | | | k c Hk]; cbn;
    try reflexivity; try exact Hwf.
  all: try (rewrite <- (getValuesAWS_closes zero_dbSecret (secretNames Read) w), Hg').
  all: try (rewrite <- (getValuesAWS_closes zero_dbSecret (secretNames Write) w), Hg').
  all: try reflexivity.
  all: cbn; rewrite <- (dbOpen_closes rs' ctx w1'), Ho'; reflexivity.
Qed.

(** C6, as the code has it. For a single role whose pool field is nil,
    when [connect] fails with [e] (at the secret, at the open, or at the
    liveness check) the call returns, it can only return [e], and at no
    point before that are all goroutines blocked. The pool field is then
    what [connect] left in it: nil when the secret or the open failed,
    the opened pool when the liveness check failed. Nothing undoes that
    assignment: from the return on the connector is the one at the call
    with that field set and nothing else changed, the library calls are
    those of the failed [connect] and no more, and at no point of the
    call, under any schedule, is [Close] called on a pool. *)
Theorem NewConnection_single_role_failure (d : AWSDB) (dp : DBProxies) (w : World)
        (e : error) (left : option Pool) (wf : World) :
  dp = Read \/ dp = Write ->
  field dp d = None ->
  connect_fails ctx dp w e left wf ->
  (exists sched s,
     run ctx sched (NewConnection d dp w) = Some s /\ returned s = Some (Some e))
  /\ forall sched s,
       run ctx sched (NewConnection d dp w) = Some s ->
       crashed (shared s) = None
       /\ (returned s = None -> exists t s', step ctx t s = Some s')
       /\ closes (world (shared s)) = closes w
       /\ forall r, returned s = Some r ->
                    r = Some e /\ field dp (db (shared s)) = left
                    /\ db (shared s) = set_field dp d left
                    /\ world (shared s) = wf.
Proof.
  intros Hrole Habsent Hfails. split.
  - destruct (@solo_returns d dp w e left wf Hrole Habsent Hfails) as (n & s & Hrun & Hret).
    exists (T_main :: T_main :: repeat (worker_of dp) n), s. split; assumption.
  - intros sched s Hrun.
    pose proof (@solo_reach_run d dp w e left wf sched s Hrole Habsent Hfails Hrun) as Hs.
    split; [| split; [| split]].
    + destruct Hrole as [-> | ->]; destruct Hs; reflexivity.
    + exact (@solo_reach_progress d dp w e left wf s Hrole Habsent Hfails Hs).
    + exact (@solo_reach_closes d dp w e left wf s Hrole Hfails Hs).
    + intros r Hr.
      destruct Hrole as [-> | ->]; destruct Hs; cbn in Hr; try discriminate;
        inversion Hr; subst; cbn; repeat split.
Qed.

End GoroutineTheorems.

(* ================================================================== *)
(** * Concrete runs *)
(* ================================================================== *)

Section ConcreteRuns.

Import Sample.

Lemma run_in_result (f : Faults) (sched : list Tid) (s0 : @St (env f))
      (P : @St (env f) -> Prop) :
  match run_in f sched s0 with Some s => P s | None => False end ->
  exists s, run_in f sched s0 = Some s /\ P s.
Proof.
  destruct (run_in f sched s0) as [s |]; [| contradiction].
  intros H. exists s. split; [reflexivity | exact H].
Qed.

(** The cases of TestReadOnly and TestWriteOnly. *)
Example test_read_only_create :
  fst (@Query (env healthy) (read_only _) tt "CREATE TABLE some_table(id INT);" [] (w0 _))
  = Val (None, Some ErrWriterNotCreated).
Proof. reflexivity. Qed.

Example test_write_only_select :
  fst (@Query (env healthy) (write_only _) tt "SELECT 1" [] (w0 _))
  = Val (None, Some ErrReaderNotCreated).
Proof. reflexivity. Qed.

Example test_write_only_select_row :
  match fst (@QueryRow (env healthy) (write_only _) tt "SELECT 1" [] (w0 _)) with
  | Val row => @Scan (env healthy) row []
  | Panic why => Panic why
  end = Val (Some ErrReaderNotCreated).
Proof. reflexivity. Qed.

(** The callback on a fresh secret ([exp] is the zero time) asks for a
    token and sets the expiry 890 s after the second clock reading; called
    again before that expiry it asks for nothing and leaves [cc] alone. *)
Example BeforeConnect_first_call :
  @BeforeConnect (env healthy) tt (MkSecret "u" "postgres" "h" 5432 "db" 0%Z) tt
                 (MkConnConfig "foo") (w0 _)
  = (Val (MkSecret "u" "postgres" "h" 5432 "db" 890000001100%Z,
          MkConnConfig "u@h:5432", None),
     @MkWorld (env healthy) 1000
       [@CallLoadDefaultConfig (env healthy) tt;
        @CallBuildAuthToken (env healthy) tt "h:5432" "us-west-2" "u"] 2).
Proof. reflexivity. Qed.

Example BeforeConnect_second_call :
  @BeforeConnect (env healthy) tt (MkSecret "u" "postgres" "h" 5432 "db" 890000001100%Z) tt
                 (MkConnConfig "foo") (@MkWorld (env healthy) 1000 [] 2)
  = (Val (MkSecret "u" "postgres" "h" 5432 "db" 890000001100%Z, MkConnConfig "foo", None),
     @MkWorld (env healthy) 1000 [] 3).
Proof. reflexivity. Qed.

Example mixed_batch_is_write :
  @getProxyFromSQL (env healthy) "SELECT 1; INSERT INTO some_table(id) VALUES (1);"
  = (Write, None).
Proof. reflexivity. Qed.

(** An INSERT through [Query] and through [QueryRow] on a connector that
    has only a reader pool, and a SELECT on the same connector. *)
Lemma Query_QueryRow_route_witness :
  @getProxyFromSQL (env healthy) "INSERT INTO some_table(id) VALUES (1);" = (Write, None)
  /\ @Query (env healthy) (read_only _) tt "INSERT INTO some_table(id) VALUES (1);" []
            (w0 _)
     = (Val (None, Some ErrWriterNotCreated), w0 _)
  /\ @QueryRow_Scan (env healthy) (read_only _) tt
       "INSERT INTO some_table(id) VALUES (1);" [] [] (w0 _)
     = (Val (Some ErrWriterNotCreated), w0 _)
  /\ @getProxyFromSQL (env healthy) "SELECT 1" = (Read, None)
  /\ @Query (env healthy) (read_only _) tt "SELECT 1" [] (w0 _)
     = (Val (Some ["1"], None),
        @MkWorld (env healthy) 1000 [@CallQuery (env healthy) 1 tt "SELECT 1" []] 0)
  /\ @QueryRow_Scan (env healthy) (read_only _) tt "SELECT 1" [] [] (w0 _)
     = (Val None,
        @MkWorld (env healthy) 1000 [@CallQueryRow (env healthy) 1 tt "SELECT 1" []] 0).
Proof.
  pose proof (proj1 (@Query_QueryRow_route (env healthy) (read_only _) tt
                       "INSERT INTO some_table(id) VALUES (1);" [] (w0 _) Write eq_refl)
                eq_refl) as HW.
  pose proof (proj1 (proj2 (@Query_QueryRow_route (env healthy) (read_only _) tt
                              "SELECT 1" [] (w0 _) Read eq_refl)) eq_refl) as HR.
  cbn [read_only reader writer] in HW, HR.
  destruct HW as (HW1 & _ & HW3). destruct HR as (HR1 & _ & HR3).
  split; [reflexivity |]. split; [exact HW1 |]. split; [exact (HW3 []) |].
  split; [reflexivity |]. split; [exact HR1 |].
  exact (HR3 "1" [] eq_refl).
Defined.

(** [QueryRow] on SQL that does not parse. *)
Lemma QueryRow_defers_error_witness :
  @QueryRowFails (env healthy) (both_pools _) "SELEC 1" (w0 _)
     (MkError 1000 "could not parse sql string: syntax error" None)
  /\ exists w',
       @QueryRow (env healthy) (both_pools _) tt "SELEC 1" [] (w0 _)
       = (Val (Some (ProxyErrorRow (proxyError
                 (MkError 1000 "could not parse sql string: syntax error" None)))), w').
Proof.
  assert (H : @QueryRowFails (env healthy) (both_pools _) "SELEC 1" (w0 _)
                (MkError 1000 "could not parse sql string: syntax error" None)).
  { exact (@fails_parse (env healthy) (both_pools _) "SELEC 1" (w0 _) [] syntax_error
             eq_refl). }
  split; [exact H |].
  destruct (@QueryRow_defers_error (env healthy) (both_pools _) tt "SELEC 1" [] (w0 _) _ H)
    as (w' & Hq & _).
  exists w'. exact Hq.
Defined.

(** The parser's error is not found by [errors.Is] in what [Query]
    returns for SQL that does not parse. *)
Lemma Query_parse_error_not_matched :
  @parser_Parse (env healthy) "SELEC 1" = ([], Some syntax_error)
  /\ exists r,
       fst (@Query (env healthy) (both_pools _) tt "SELEC 1" [] (w0 _)) = Val (None, Some r)
       /\ errors_Is r syntax_error = false.
Proof.
  split; [reflexivity |]. eexists. split; reflexivity.
Qed.

(** The same input: the text is kept, the identity is not. *)
Lemma Query_parse_error_text_only_witness :
  @parser_Parse (env healthy) "SELEC 1" = ([], Some syntax_error)
  /\ (err_addr syntax_error < next_addr (w0 healthy))%N
  /\ exists r,
       fst (@Query (env healthy) (both_pools _) tt "SELEC 1" [] (w0 _)) = Val (None, Some r)
       /\ Error r = "could not parse sql string: syntax error"
       /\ errors_Is r syntax_error = false.
Proof.
  split; [reflexivity |]. split; [reflexivity |].
  destruct (proj1 (@Query_parse_error_text_only (env healthy) (both_pools _) tt "SELEC 1" []
                     (w0 _)) [] syntax_error eq_refl eq_refl)
    as (r & Hq & _ & _ & Ht & _ & Hi).
  exists r. split; [exact Hq |]. split; [exact Ht | exact Hi].
Defined.

(** The callback in the healthy sample world: the first call, on a
    record that was never used, mints a token; a call 100 ns later, with
    the record the first call left, requests nothing. *)
Lemma BeforeConnect_refreshes_token_witness :
  (exp (MkSecret "u" "postgres" "h" 5432 "db" 0%Z) < @clock (env healthy) 0)%Z
  /\ @BeforeConnect (env healthy) tt (MkSecret "u" "postgres" "h" 5432 "db" 0%Z) tt
       (MkConnConfig "foo") (w0 _)
     = (Val (MkSecret "u" "postgres" "h" 5432 "db" 890000001100%Z,
             MkConnConfig "u@h:5432", None),
        @MkWorld (env healthy) 1000
          [@CallLoadDefaultConfig (env healthy) tt;
           @CallBuildAuthToken (env healthy) tt "h:5432" "us-west-2" "u"] 2)
  /\ (@clock (env healthy) 2 <= 890000001100)%Z
  /\ @BeforeConnect (env healthy) tt (MkSecret "u" "postgres" "h" 5432 "db" 890000001100%Z)
       tt (MkConnConfig "bar") (@MkWorld (env healthy) 1000 [] 2)
     = (Val (MkSecret "u" "postgres" "h" 5432 "db" 890000001100%Z, MkConnConfig "bar", None),
        @MkWorld (env healthy) 1000 [] 3).
Proof.
  assert (H1 : (exp (MkSecret "u" "postgres" "h" 5432 "db" 0%Z) < @clock (env healthy) 0)%Z)
    by reflexivity.
  assert (H2 : (@clock (env healthy) 2 <= 890000001100)%Z) by (cbn; lia).
  pose proof (proj2 (proj2 (proj2 (proj2
                (@BeforeConnect_refreshes_token (env healthy) tt
                   (MkSecret "u" "postgres" "h" 5432 "db" 0%Z) tt (MkConnConfig "foo")
                   (w0 _))))) H1) as (_ & H).
  cbn in H. destruct H as (Hfirst & _ & _ & _ & Hkeep & _).
  split; [exact H1 |]. split; [exact Hfirst |]. split; [exact H2 |].
  exact (proj2 (Hkeep tt (MkConnConfig "bar") (@MkWorld (env healthy) 1000 [] 2) H2)).
Defined.

(** A SELECT is classified as [Read]. *)
Lemma getProxyFromSQL_role_is_Read_or_Write_witness :
  @getProxyFromSQL (env healthy) "SELECT 1" = (Read, None)
  /\ (Read = Read \/ Read = Write).
Proof.
  split; [reflexivity |].
  exact (proj1 (@getProxyFromSQL_role_is_Read_or_Write (env healthy) "SELECT 1" Read eq_refl)).
Defined.

(** The role of TestNewConnection: no library is called. *)
Lemma NewConnection_invalid_role_witness :
  "not read or write" <> Read /\ "not read or write" <> Write
  /\ "not read or write" <> ReadAndWrite
  /\ forall sched s,
       run_in no_secrets sched (NewConnection (no_pools _) "not read or write" (w0 _)) = Some s ->
       calls (world (shared s)) = [].
Proof.
  assert (H1 : "not read or write" <> Read) by discriminate.
  assert (H2 : "not read or write" <> Write) by discriminate.
  assert (H3 : "not read or write" <> ReadAndWrite) by discriminate.
  split; [exact H1 |]. split; [exact H2 |]. split; [exact H3 |].
  intros sched s Hrun.
  exact (proj1 (proj2 (@NewConnection_invalid_role (env no_secrets) tt (no_pools _)
                         "not read or write" (w0 _) H1 H2 H3) sched s Hrun)).
Defined.

(** When the liveness check fails, the call returns the failure of
    [Ping] and the pool that was opened is still in the reader field;
    it was not closed: the check is the last library call, also after
    [connect] has run to its end. *)
Lemma NewConnection_ping_failure_keeps_pool :
  exists sched s,
    run_in unreachable sched (NewConnection (no_pools _) Read (w0 _)) = Some s
    /\ returned s = Some (Some ping_timeout)
    /\ reader (db (shared s)) = Some 75
    /\ reader (db (shared s)) <> None
    /\ readpc s = W_exited
    /\ calls (world (shared s)) = unreachable_calls
    /\ closes (world (shared s)) = [].
Proof.
  exists [T_main; T_main; T_read; T_read; T_read; T_read; T_read].
  apply run_in_result. vm_compute. repeat split. discriminate.
Qed.

(** The same input, under every schedule. *)
Lemma NewConnection_single_role_failure_witness :
  (Read = Read \/ Read = Write)
  /\ @field (env unreachable) Read (no_pools _) = None
  /\ @connect_fails (env unreachable) tt Read (w0 _) ping_timeout (Some 75)
       (@MkWorld (env unreachable) 1000 unreachable_calls 0)
  /\ forall sched s,
       run_in unreachable sched (NewConnection (no_pools _) Read (w0 _)) = Some s ->
       closes (world (shared s)) = []
       /\ forall r, returned s = Some r ->
                    r = Some ping_timeout
                    /\ db (shared s) = @MkAWSDB (env unreachable) (Some 75) None
                    /\ calls (world (shared s)) = unreachable_calls.
Proof.
  assert (Hf : @connect_fails (env unreachable) tt Read (w0 _) ping_timeout (Some 75)
                 (@MkWorld (env unreachable) 1000 unreachable_calls 0)).
  { exact (@fails_ping (env unreachable) tt Read (w0 _)
             (MkSecret "core_iam_user_read" "postgres" "db.internal" 5432 "core" 0%Z)
             (@MkWorld (env unreachable) 1000
                [@CallGetSecretValue (env unreachable) "core_iam_user_read"] 0)
             75
             (@MkWorld (env unreachable) 1000 (removelast unreachable_calls) 0)
             ping_timeout eq_refl eq_refl eq_refl). }
  split; [left; reflexivity |]. split; [reflexivity |]. split; [exact Hf |].
  intros sched s Hrun.
  destruct (proj2 (@NewConnection_single_role_failure (env unreachable) tt
                     (no_pools _) Read (w0 _) ping_timeout (Some 75) _
                     (or_introl eq_refl) eq_refl Hf) sched s Hrun)
    as (_ & _ & Hcl & Hr).
  split; [exact Hcl |].
  intros r Hret. destruct (Hr r Hret) as (H1 & _ & H3 & H4).
  split; [exact H1 |]. split; [exact H3 |]. rewrite H4. reflexivity.
Defined.

(** C7 at NewConnection(ctx, ReadAndWrite) when neither secret can be
    fetched. Both [connect] goroutines reach their send; the calling
    goroutine receives the first error and returns it. After that the
    second [connect] stays at its send for ever (nobody receives), its
    deferred [wg.Done] never runs, the closing goroutine stays in
    [wg.Wait], the channel is never closed, and no goroutine can move. *)
Theorem NewConnection_second_failure_blocks :
  exists s,
    run_in no_secrets
      [T_main; T_main; T_main; T_main; T_read; T_write; T_read; T_read]
      (NewConnection (no_pools _) ReadAndWrite (w0 _)) = Some s
    /\ returned s = Some (Some (MkError 1000 "secret not found" None))
    /\ writepc s = W_send (MkError 1001 "secret not found" None)
    /\ worker_pending (writepc s) = true
    /\ closer_pending s = true
    /\ wg (shared s) = 1%Z
    /\ closed (shared s) = false
    /\ stuck (E := env no_secrets) tt s.
Proof.
  apply run_in_result. vm_compute. repeat split.
  intros t. destruct t; reflexivity.
Qed.

(** The call returns as soon as one [connect] has sent its error, whether
    or not the other has run: here the writer's [connect] has not executed
    a single statement. *)
Lemma NewConnection_returns_before_sibling :
  exists s,
    run_in no_read_secret
      [T_main; T_main; T_main; T_main; T_read; T_read]
      (NewConnection (no_pools _) ReadAndWrite (w0 _)) = Some s
    /\ returned s = Some (Some (MkError 1000 "secret not found" None))
    /\ writepc s = C_getValues.
Proof.
  apply run_in_result. vm_compute. repeat split.
Qed.

(** In [Ping] the closing goroutine is started before any [wg.Add]: it can
    pass [wg.Wait] at once and close the channel, after which [Ping]
    returns nil while neither [pingProxy] has run. *)
Lemma Ping_can_return_before_probes :
  exists s,
    run_in unreachable
      [T_main; T_closer; T_closer; T_main; T_main; T_main; T_main; T_main]
      (Ping (both_pools _) (w0 _)) = Some s
    /\ returned s = Some None
    /\ readpc s = P_ping /\ writepc s = P_ping
    /\ calls (world (shared s)) = [].
Proof.
  apply run_in_result. vm_compute. repeat split.
Qed.

(** A probe that fails after that sends on the closed channel. *)
Lemma Ping_probe_sends_on_closed_channel :
  exists s,
    run_in unreachable
      [T_main; T_closer; T_closer; T_main; T_main; T_main; T_main; T_main; T_read; T_read]
      (Ping (both_pools _) (w0 _)) = Some s
    /\ crashed (shared s) = Some "send on closed channel".
Proof.
  apply run_in_result. vm_compute. reflexivity.
Qed.

(** With two failing probes scheduled in order, [Ping] has the same
    blocked sender as [NewConnection]. *)
Lemma Ping_second_failure_blocks :
  exists s,
    run_in unreachable
      [T_main; T_main; T_main; T_main; T_main; T_read; T_write; T_read; T_read]
      (Ping (both_pools _) (w0 _)) = Some s
    /\ returned s = Some (Some ping_timeout)
    /\ writepc s = W_send ping_timeout
    /\ closerpc s = K_wait
    /\ stuck (E := env unreachable) tt s.
Proof.
  apply run_in_result. vm_compute. repeat split.
  intros t. destruct t; reflexivity.
Qed.

End ConcreteRuns.

(* ================================================================== *)
(** * Theorems: the wait group, termination and success *)
(* ================================================================== *)

Section BarrierTheorems.
Context {E : Extern}.
Variable ctx : Ctx.

Lemma wg_Done_pos (sh : Shared) :
  (1 <= wg sh)%Z -> wg_Done sh = with_wg sh (wg sh - 1).
Proof.
  intros H. unfold wg_Done, wg_Add.
  replace (wg sh + -1)%Z with (wg sh - 1)%Z by lia.
  destruct (Z.ltb_spec (wg sh - 1) 0); [lia | reflexivity].
Qed.

(** What one statement of a worker can change. *)
Lemma worker_step_effect (dp : DBProxies) (pc pc' : WorkerPC) (m m' : MainPC)
      (sh sh' : Shared) :
  crashed sh = None ->
  worker_step ctx dp pc m sh = Some (pc', m', sh') ->
  (pc = W_deferred /\ pc' = W_exited /\ m' = m /\ sh' = wg_Done sh)
  \/ (live pc = 1%Z /\ live pc' = 1%Z /\ wg sh' = wg sh /\ closed sh' = closed sh
      /\ worker_left pc' + (if isNil (crashed sh') then 1 else 0) < worker_left pc + 1
      /\ (m' = m
          \/ exists e, pc = W_send e /\ m = M_range /\ m' = M_returned (Some e))).
Proof.
  intros Hc H. destruct pc; cbn in H; try discriminate.
  - destruct (getValuesAWS _ _ _) as [[[rs [e |]] | why] w1];
      inversion H; subst; right; cbn; rewrite ?Hc; cbn; repeat split; try lia; auto.
  - destruct (String.eqb dp Read || String.eqb dp Write).
    + destruct (dbOpen _ _ _) as [[[p [e |]] | why] w1];
        inversion H; subst; right; cbn; rewrite ?Hc; cbn; repeat split; try lia; auto.
    + inversion H; subst; right; cbn; rewrite ?Hc; cbn; repeat split; try lia; auto.
  - destruct (ping_field _ _ _) as [[[e |] | why] w1];
      inversion H; subst; right; cbn; rewrite ?Hc; cbn; repeat split; try lia; auto.
  - inversion H; subst; right; cbn; rewrite ?Hc; cbn; repeat split; try lia; auto.
  - destruct (String.eqb dp Read || String.eqb dp Write).
    + destruct (ping_field _ _ _) as [[[e |] | why] w1];
        inversion H; subst; right; cbn; rewrite ?Hc; cbn; repeat split; try lia; auto.
    + inversion H; subst; right; cbn; rewrite ?Hc; cbn; repeat split; try lia; auto.
  - destruct (closed sh) eqn:Hcl.
    + inversion H; subst; right; cbn; rewrite ?Hc; cbn; repeat split; try lia; auto.
    + destruct m; try discriminate.
      inversion H; subst; right; cbn; rewrite ?Hc; cbn; repeat split; try lia; auto.
      right. eexists. repeat split.
  - inversion H; subst. left. repeat split.
Qed.

Lemma live_range (pc : WorkerPC) : live pc = 0%Z \/ live pc = 1%Z.
Proof. destruct pc; cbn; auto. Qed.

Lemma wg_Add_nonneg (delta : Z) (sh : Shared) :
  (0 <= wg sh + delta)%Z -> wg_Add delta sh = with_wg sh (wg sh + delta).
Proof.
  intros H. unfold wg_Add. destruct (Z.ltb_spec (wg sh + delta) 0); [lia | reflexivity].
Qed.

Ltac norm := cbn -[Z.add Z.sub live wg_Add wg_Done] in *.

Ltac inv_some :=
  match goal with
  | H : Some _ = Some _ |- _ => inversion H; subst; clear H
  end.

Lemma live_switch (rs : dbSecret) : live (C_switch rs) = 1%Z.
Proof. reflexivity. Qed.

Lemma live_send (e : error) : live (W_send e) = 1%Z.
Proof. reflexivity. Qed.

Ltac live_norm :=
  try change (live W_absent) with 0%Z in *;
  try change (live W_exited) with 0%Z in *;
  try change (live C_getValues) with 1%Z in *;
  try change (live C_ping) with 1%Z in *;
  try change (live C_log) with 1%Z in *;
  try change (live P_ping) with 1%Z in *;
  try change (live W_deferred) with 1%Z in *;
  rewrite ?live_switch, ?live_send in *.

Ltac fin :=
  repeat split; norm; live_norm; auto; try lia; try congruence;
  try (intros; exfalso; congruence);
  try (intros _; match goal with H : _ <> K_wait -> _ |- _ => apply H; discriminate end);
  try match goal with
      | H : ?c = false |- closer_at _ ?c => rewrite H; constructor
      | H : ?c = true |- closer_at _ ?c => rewrite H; constructor
      | H : false = ?c |- closer_at _ ?c => rewrite <- H; constructor
      | H : true = ?c |- closer_at _ ?c => rewrite <- H; constructor
      | |- closer_at _ _ => constructor
      end.

Ltac split_hyps :=
  repeat match goal with
         | H : _ /\ _ |- _ => destruct H
         end.

Lemma nc_inv_main (s s' : St) :
  nc_inv s -> main_step s = Some s' -> nc_inv s'.
Proof.
  intros Hinv Hstep. destruct s as [sh m k r w].
  unfold main_step in Hstep. unfold nc_inv, none_started in *. norm.
  destruct m; try contradiction; split_hyps; subst.
  - inv_some. norm. rewrite wg_Add_nonneg by lia. fin.
  - destruct (String.eqb dp Read); [| destruct (String.eqb dp Write);
      [| destruct (String.eqb dp ReadAndWrite)]]; inv_some; norm;
      unfold wg_Done; rewrite ?wg_Add_nonneg by lia; fin.
  - inv_some. fin.
  - inv_some. fin.
  - inv_some. fin.
  - destruct (closed sh) eqn:Hcl; [| discriminate]. inv_some. fin.
  - discriminate.
Qed.

Lemma nc_inv_closer (s s' : St) :
  nc_inv s -> closer_step s = Some s' -> nc_inv s'.
Proof.
  intros Hinv Hstep. destruct s as [sh m k r w].
  unfold closer_step in Hstep. unfold nc_inv, none_started in *. norm.
  destruct k; try discriminate.
  - destruct (Z.eqb_spec (wg sh) 0) as [Hz |]; [| discriminate]. inv_some.
    destruct (live_range r), (live_range w);
      destruct m; try contradiction; split_hyps; subst; try lia;
      match goal with
      | H : closer_at K_wait _ |- _ => inversion H
      | _ => idtac
      end; fin.
  - destruct (closed sh) eqn:Hcl.
    + destruct m; try contradiction; split_hyps; try discriminate;
        match goal with H : closer_at K_close _ |- _ => inversion H end.
    + inv_some.
      destruct m; try contradiction; split_hyps; try discriminate; fin.
Qed.

Lemma nc_inv_closing (s : St) :
  nc_inv s -> closerpc s = K_close -> closed (shared s) = false.
Proof.
  destruct s as [sh m k r w]. unfold nc_inv, none_started. norm.
  intros Hinv ->.
  destruct m; try contradiction; split_hyps; try discriminate;
    match goal with H : closer_at K_close _ |- _ => inversion H; reflexivity end.
Qed.

Lemma nc_inv_wg_read (s : St) : nc_inv s -> (live (readpc s) <= wg (shared s))%Z.
Proof.
  destruct s as [sh m k r w]. unfold nc_inv, none_started. norm.
  destruct (live_range r), (live_range w), m; intros; try contradiction; split_hyps; subst;
    norm; live_norm; lia.
Qed.

Lemma nc_inv_wg_write (s : St) : nc_inv s -> (live (writepc s) <= wg (shared s))%Z.
Proof.
  destruct s as [sh m k r w]. unfold nc_inv, none_started. norm.
  destruct (live_range r), (live_range w), m; intros; try contradiction; split_hyps; subst;
    norm; live_norm; lia.
Qed.

Lemma nc_inv_read (s : St) (pc' : WorkerPC) (m' : MainPC) (sh' : Shared) :
  nc_inv s -> crashed (shared s) = None ->
  worker_step ctx Read (readpc s) (mainpc s) (shared s) = Some (pc', m', sh') ->
  nc_inv (MkSt sh' m' (closerpc s) pc' (writepc s)).
Proof.
  intros Hinv Hc Hstep. pose proof (@nc_inv_wg_read s Hinv) as Hle.
  destruct s as [sh m k r w]. norm.
  destruct (@worker_step_effect _ _ _ _ _ _ _ Hc Hstep)
    as [(-> & -> & -> & ->) | (Hl & Hl' & Hwg & Hcl & _ & Hm)].
  - change (live W_deferred) with 1%Z in Hle. rewrite wg_Done_pos by lia.
    unfold nc_inv, none_started in *. norm.
    change (live W_deferred) with 1%Z in *. change (live W_exited) with 0%Z.
    destruct m; try contradiction; split_hyps; try discriminate; fin;
      intros Hk; match goal with H : _ <> K_wait -> _ |- _ => specialize (H Hk) end; lia.
  - unfold nc_inv, none_started in *. norm.
    destruct Hm as [-> | (e & -> & -> & ->)].
    + destruct m; try contradiction; split_hyps; subst; try discriminate;
        rewrite ?Hwg, ?Hcl, ?Hl' in *; rewrite ?Hl in *; fin.
    + split_hyps. rewrite ?Hwg, ?Hcl, ?Hl' in *; rewrite ?Hl in *; fin.
Qed.

Lemma nc_inv_write (s : St) (pc' : WorkerPC) (m' : MainPC) (sh' : Shared) :
  nc_inv s -> crashed (shared s) = None ->
  worker_step ctx Write (writepc s) (mainpc s) (shared s) = Some (pc', m', sh') ->
  nc_inv (MkSt sh' m' (closerpc s) (readpc s) pc').
Proof.
  intros Hinv Hc Hstep. pose proof (@nc_inv_wg_write s Hinv) as Hle.
  destruct s as [sh m k r w]. norm.
  destruct (@worker_step_effect _ _ _ _ _ _ _ Hc Hstep)
    as [(-> & -> & -> & ->) | (Hl & Hl' & Hwg & Hcl & _ & Hm)].
  - change (live W_deferred) with 1%Z in Hle. rewrite wg_Done_pos by lia.
    unfold nc_inv, none_started in *. norm.
    change (live W_deferred) with 1%Z in *. change (live W_exited) with 0%Z.
    destruct m; try contradiction; split_hyps; try discriminate; fin;
      intros Hk; match goal with H : _ <> K_wait -> _ |- _ => specialize (H Hk) end; lia.
  - unfold nc_inv, none_started in *. norm.
    destruct Hm as [-> | (e & -> & -> & ->)].
    + destruct m; try contradiction; split_hyps; subst; try discriminate;
        rewrite ?Hwg, ?Hcl, ?Hl' in *; rewrite ?Hl in *; fin.
    + split_hyps. rewrite ?Hwg, ?Hcl, ?Hl' in *; rewrite ?Hl in *; fin.
Qed.

Lemma nc_inv_step (t : Tid) (s s' : St) :
  nc_inv s -> step ctx t s = Some s' -> nc_inv s'.
Proof.
  intros Hinv Hstep. unfold step in Hstep.
  destruct (crashed (shared s)) eqn:Hc; [discriminate |].
  destruct t.
  - exact (nc_inv_main _ Hinv Hstep).
  - exact (nc_inv_closer _ Hinv Hstep).
  - destruct (worker_step ctx Read _ _ _) as [[[pc' m'] sh'] |] eqn:Hw; [| discriminate].
    inv_some. exact (nc_inv_read _ Hinv Hc Hw).
  - destruct (worker_step ctx Write _ _ _) as [[[pc' m'] sh'] |] eqn:Hw; [| discriminate].
    inv_some. exact (nc_inv_write _ Hinv Hc Hw).
Qed.

Lemma nc_inv_start (d : AWSDB) (dp : DBProxies) (w : World) :
  nc_inv (NewConnection d dp w).
Proof. unfold nc_inv, none_started. cbn. repeat split. Qed.

Lemma nc_inv_run (d : AWSDB) (dp : DBProxies) (w : World) (sched : list Tid) (s : St) :
  run ctx sched (NewConnection d dp w) = Some s -> nc_inv s.
Proof.
  refine (@run_invariant _ ctx nc_inv _ sched (NewConnection d dp w) s _).
  - intros t s0 s1. apply nc_inv_step.
  - apply nc_inv_start.
Qed.

(** X1. [NewConnection] returns nil only behind the barrier: by then the
    closing goroutine has closed the channel, the counter of the wait
    group is 0 and every [connect] that was started has run to its end. *)
Theorem NewConnection_nil_after_barrier (d : AWSDB) (dp : DBProxies) (w : World)
        (sched : list Tid) (s : St) :
  run ctx sched (NewConnection d dp w) = Some s ->
  returned s = Some None ->
  closed (shared s) = true
  /\ closerpc s = K_done
  /\ wg (shared s) = 0%Z
  /\ worker_pending (readpc s) = false
  /\ worker_pending (writepc s) = false.
Proof.
  intros Hrun Hret. pose proof (@nc_inv_run d dp w sched s Hrun) as Hinv.
  destruct s as [sh m k r w']. unfold returned in Hret. norm.
  destruct m; try discriminate. inversion Hret; subst.
  unfold nc_inv in Hinv. norm. destruct Hinv as (Hwg & Hk & Hz & Hcl).
  specialize (Hcl eq_refl). rewrite Hcl in Hk. inversion Hk; subst.
  specialize (Hz ltac:(discriminate)).
  unfold live in Hwg.
  destruct (worker_pending r), (worker_pending w'); repeat split; auto; lia.
Qed.

Lemma nc_inv_spawn_ok (s : St) : nc_inv s -> spawn_ok s.
Proof.
  destruct s as [sh m k r w]. unfold nc_inv, spawn_ok, none_started. norm.
  destruct m; intros; try contradiction; split_hyps; repeat split; auto.
Qed.

Lemma steps_left_step (t : Tid) (s s' : St) :
  spawn_ok s -> step ctx t s = Some s' -> steps_left s' < steps_left s.
Proof.
  intros Hinv Hstep. unfold step in Hstep.
  destruct (crashed (shared s)) eqn:Hc; [discriminate |].
  destruct s as [sh m k r w]. unfold steps_left. norm. rewrite Hc. norm.
  destruct t.
  - unfold main_step in Hstep. unfold spawn_ok, none_started in Hinv. norm.
    destruct m; try contradiction; split_hyps; subst;
      repeat match goal with
             | H : context [if ?b then _ else _] |- _ => destruct b
             end;
      try discriminate; inv_some; cbn;
      repeat match goal with |- context [isNil ?c] => destruct (isNil c) end; lia.
  - unfold closer_step in Hstep. norm.
    destruct k; try discriminate;
      repeat match goal with
             | H : context [if ?b then _ else _] |- _ => destruct b
             end;
      try discriminate; inv_some; cbn;
      repeat match goal with |- context [isNil ?c] => destruct (isNil c) end; lia.
  - destruct (worker_step ctx Read _ _ _) as [[[pc' m'] sh'] |] eqn:Hw; [| discriminate].
    inv_some. norm.
    destruct (@worker_step_effect _ _ _ _ _ _ _ Hc Hw)
      as [(-> & -> & -> & ->) | (_ & _ & _ & _ & Hlt & Hm)].
    + cbn. destruct (isNil (crashed (wg_Done sh))); lia.
    + destruct Hm as [-> | (e & -> & -> & ->)]; cbn in *; lia.
  - destruct (worker_step ctx Write _ _ _) as [[[pc' m'] sh'] |] eqn:Hw; [| discriminate].
    inv_some. norm.
    destruct (@worker_step_effect _ _ _ _ _ _ _ Hc Hw)
      as [(-> & -> & -> & ->) | (_ & _ & _ & _ & Hlt & Hm)].
    + cbn. destruct (isNil (crashed (wg_Done sh))); lia.
    + destruct Hm as [-> | (e & -> & -> & ->)]; cbn in *; lia.
Qed.

(** A bound on the length of every run, and a run up to the return,
    for states kept by an invariant under which no goroutine is started
    twice and some goroutine can always move. *)
Section Bounded.

Variable Inv : St -> Prop.

Hypothesis Inv_spawn : forall s, Inv s -> spawn_ok s.
Hypothesis Inv_step : forall t s s', Inv s -> step ctx t s = Some s' -> Inv s'.

Lemma steps_left_run (sched : list Tid) (s s' : St) :
  Inv s -> run ctx sched s = Some s' -> length sched + steps_left s' <= steps_left s.
Proof.
  revert s. induction sched as [| t rest IH]; intros s Hinv Hrun; cbn in Hrun.
  - inversion Hrun; subst. cbn. lia.
  - destruct (step ctx t s) as [s1 |] eqn:H1; [| discriminate].
    pose proof (@steps_left_step t s s1 (Inv_spawn Hinv) H1).
    pose proof (IH s1 (@Inv_step t s s1 Hinv H1) Hrun). cbn. lia.
Qed.

Hypothesis Inv_progress :
  forall s, Inv s -> returned s = None -> exists t s', step ctx t s = Some s'.

Lemma runs_to_return (n : nat) (s : St) :
  steps_left s <= n -> Inv s ->
  exists sched s' r, run ctx sched s = Some s' /\ Inv s' /\ returned s' = Some r.
Proof.
  revert s. induction n as [| n IH]; intros s Hn Hinv.
  - destruct (returned s) as [r |] eqn:Hret.
    + exists [], s, r. repeat split; auto.
    + destruct (Inv_progress Hinv Hret) as (t & s1 & H1).
      pose proof (@steps_left_step t s s1 (Inv_spawn Hinv) H1). lia.
  - destruct (returned s) as [r |] eqn:Hret.
    + exists [], s, r. repeat split; auto.
    + destruct (Inv_progress Hinv Hret) as (t & s1 & H1).
      pose proof (@steps_left_step t s s1 (Inv_spawn Hinv) H1) as Hlt.
      destruct (IH s1 ltac:(lia) (@Inv_step t s s1 Hinv H1)) as (sched & s' & r & Hrun & Hi & Hr).
      exists (t :: sched), s', r. split; [| split; assumption]. cbn. rewrite H1. exact Hrun.
Qed.

End Bounded.

(** X2. Whatever the libraries answer and however the goroutines are
    scheduled, a call of [NewConnection] runs at most 20 statements:
    no goroutine loops. *)
Theorem NewConnection_terminates (d : AWSDB) (dp : DBProxies) (w : World)
        (sched : list Tid) (s : St) :
  run ctx sched (NewConnection d dp w) = Some s -> length sched <= 20.
Proof.
  intros Hrun.
  pose proof (@steps_left_run nc_inv nc_inv_spawn_ok nc_inv_step sched _ s
                (nc_inv_start d dp w) Hrun) as H.
  cbn in H. lia.
Qed.


Lemma worker_step_enabled (dp : DBProxies) (pc : WorkerPC) (m : MainPC) (sh : Shared) :
  match pc with W_absent | W_exited | W_send _ => False | _ => True end ->
  exists r, worker_step ctx dp pc m sh = Some r.
Proof.
  destruct pc; cbn; try contradiction; intros _.
  - destruct (getValuesAWS _ _ _) as [[[rs [e |]] | why] w1]; eexists; reflexivity.
  - destruct (String.eqb dp Read || String.eqb dp Write); [| eexists; reflexivity].
    destruct (dbOpen _ _ _) as [[[p [e |]] | why] w1]; eexists; reflexivity.
  - destruct (ping_field _ _ _) as [[[e |] | why] w1]; eexists; reflexivity.
  - eexists; reflexivity.
  - destruct (String.eqb dp Read || String.eqb dp Write); [| eexists; reflexivity].
    destruct (ping_field _ _ _) as [[[e |] | why] w1]; eexists; reflexivity.
  - eexists; reflexivity.
Qed.

Lemma role_ok_ext (role : DBProxies) (wanted : bool) (rs : dbSecret) (p : Pool)
      (d : AWSDB) (pc : WorkerPC) (dbv dbv' : AWSDB) :
  field role dbv' = field role dbv ->
  role_ok role wanted rs p d pc dbv -> role_ok role wanted rs p d pc dbv'.
Proof.
  intros Hf. unfold role_ok. destruct pc; rewrite ?Hf; auto.
Qed.

Lemma role_ok_step (role : DBProxies) (wanted : bool) (rs : dbSecret) (p : Pool)
      (d : AWSDB) (pc pc' : WorkerPC) (m m' : MainPC) (sh sh' : Shared) :
  role = Read \/ role = Write ->
  (wanted = true -> connect_ok ctx role rs p) ->
  crashed sh = None ->
  (live pc <= wg sh)%Z ->
  role_ok role wanted rs p d pc (db sh) ->
  worker_step ctx role pc m sh = Some (pc', m', sh') ->
  crashed sh' = None /\ m' = m
  /\ role_ok role wanted rs p d pc' (db sh')
  /\ (role = Read -> writer (db sh') = writer (db sh))
  /\ (role = Write -> reader (db sh') = reader (db sh)).
Proof.
  intros Hrole Hok Hc Hwg Hpc Hstep.
  unfold role_ok in Hpc.
  destruct pc; try contradiction; cbn in Hstep; try discriminate.
  - destruct Hpc as (Hw & Hf). destruct (ok_secret (Hok Hw) (world sh)) as (w1 & Hs).
    rewrite Hs in Hstep. inv_some. cbn. repeat split; auto.
  - destruct Hpc as (Hw & -> & Hf). destruct (ok_open (Hok Hw) (world sh)) as (w1 & Ho).
    rewrite Ho in Hstep.
    destruct Hrole as [-> | ->]; cbn in Hstep; inv_some; cbn; repeat split; auto;
      discriminate.
  - destruct Hpc as (Hw & Hf). unfold ping_field in Hstep. rewrite Hf in Hstep.
    cbn in Hstep. rewrite (ok_ping (Hok Hw)) in Hstep. inv_some. cbn. repeat split; auto.
  - destruct Hpc as (Hw & Hf). inv_some. cbn. repeat split; auto.
  - destruct Hpc as (Hw & Hf). inv_some. change (live W_deferred) with 1%Z in Hwg.
    rewrite wg_Done_pos by lia. cbn. repeat split; auto.
Qed.

Section Success.

Variables (d : AWSDB) (dp : DBProxies) (rsR : dbSecret) (pR : Pool)
          (rsW : dbSecret) (pW : Pool).

Hypothesis valid : dp = Read \/ dp = Write \/ dp = ReadAndWrite.
Hypothesis okR : wants dp Read = true -> connect_ok ctx Read rsR pR.
Hypothesis okW : wants dp Write = true -> connect_ok ctx Write rsW pW.

Ltac finish_ok Hnc' :=
  unfold ok_inv; split;
  [ norm; auto
  | split;
    [ exact Hnc'
    | unfold main_ok, started, role_ok in *; norm; repeat split; auto; try discriminate;
      try congruence ] ].

Lemma ok_inv_main (s s' : St) :
  ok_inv d dp rsR pR rsW pW s -> main_step s = Some s' -> ok_inv d dp rsR pR rsW pW s'.
Proof.
  intros (Hc & Hnc & HR & HW & Hm) Hstep.
  pose proof (@nc_inv_main s s' Hnc Hstep) as Hnc'.
  destruct s as [sh m k r w].
  unfold main_step in Hstep. unfold nc_inv, none_started in Hnc.
  unfold main_ok, started in Hm. norm.
  destruct m; try contradiction; split_hyps; subst.
  - inv_some. rewrite wg_Add_nonneg in * by lia. finish_ok Hnc'.
  - destruct valid as [-> | [-> | ->]]; norm; inv_some;
      rewrite ?wg_Add_nonneg in * by lia; finish_ok Hnc'.
  - inv_some. finish_ok Hnc'.
  - inv_some. finish_ok Hnc'.
  - destruct (closed sh) eqn:Hcl; [| discriminate]. inv_some. finish_ok Hnc'.
  - discriminate.
Qed.

Lemma ok_inv_closer (s s' : St) :
  ok_inv d dp rsR pR rsW pW s -> closer_step s = Some s' -> ok_inv d dp rsR pR rsW pW s'.
Proof.
  intros (Hc & Hnc & HR & HW & Hm) Hstep.
  pose proof (@nc_inv_closer s s' Hnc Hstep) as Hnc'.
  pose proof (@nc_inv_closing s Hnc) as Hcl.
  destruct s as [sh m k r w].
  unfold closer_step in Hstep. norm.
  destruct k; try discriminate.
  - destruct (wg sh =? 0)%Z; [| discriminate]. inv_some. finish_ok Hnc'.
  - rewrite (Hcl eq_refl) in Hstep. inv_some. finish_ok Hnc'.
Qed.

Lemma ok_inv_read (s : St) (pc' : WorkerPC) (m' : MainPC) (sh' : Shared) :
  ok_inv d dp rsR pR rsW pW s ->
  worker_step ctx Read (readpc s) (mainpc s) (shared s) = Some (pc', m', sh') ->
  ok_inv d dp rsR pR rsW pW (MkSt sh' m' (closerpc s) pc' (writepc s)).
Proof.
  intros (Hc & Hnc & HR & HW & Hm) Hstep.
  pose proof (@nc_inv_read s pc' m' sh' Hnc Hc Hstep) as Hnc'.
  pose proof (@nc_inv_wg_read s Hnc) as Hle.
  destruct (@role_ok_step Read (wants dp Read) rsR pR d (readpc s) pc' (mainpc s) m'
              (shared s) sh' (or_introl eq_refl) okR Hc Hle HR Hstep)
    as (Hc' & -> & HR' & Hwr & _).
  assert (Hne : readpc s <> W_absent).
  { intros Habs. rewrite Habs in Hstep. discriminate. }
  assert (Hne' : pc' <> W_absent).
  { intros ->. destruct (readpc s); cbn in Hstep; try discriminate;
      repeat match goal with
             | H : context [match ?x with _ => _ end] |- _ => destruct x
             end; try discriminate. }
  destruct s as [sh m k r w]. norm.
  unfold ok_inv. norm. split; [exact Hc' |]. split; [exact Hnc' |].
  split; [exact HR' |]. split.
  - apply (@role_ok_ext Write _ _ _ _ _ (db sh)); [exact (Hwr eq_refl) | exact HW].
  - unfold main_ok, started in *. norm.
    destruct m; try contradiction; split_hyps; repeat split; auto.
Qed.

Lemma ok_inv_write (s : St) (pc' : WorkerPC) (m' : MainPC) (sh' : Shared) :
  ok_inv d dp rsR pR rsW pW s ->
  worker_step ctx Write (writepc s) (mainpc s) (shared s) = Some (pc', m', sh') ->
  ok_inv d dp rsR pR rsW pW (MkSt sh' m' (closerpc s) (readpc s) pc').
Proof.
  intros (Hc & Hnc & HR & HW & Hm) Hstep.
  pose proof (@nc_inv_write s pc' m' sh' Hnc Hc Hstep) as Hnc'.
  pose proof (@nc_inv_wg_write s Hnc) as Hle.
  destruct (@role_ok_step Write (wants dp Write) rsW pW d (writepc s) pc' (mainpc s) m'
              (shared s) sh' (or_intror eq_refl) okW Hc Hle HW Hstep)
    as (Hc' & -> & HW' & _ & Hrd).
  assert (Hne : writepc s <> W_absent).
  { intros Habs. rewrite Habs in Hstep. discriminate. }
  assert (Hne' : pc' <> W_absent).
  { intros ->. destruct (writepc s); cbn in Hstep; try discriminate;
      repeat match goal with
             | H : context [match ?x with _ => _ end] |- _ => destruct x
             end; try discriminate. }
  destruct s as [sh m k r w]. norm.
  unfold ok_inv. norm. split; [exact Hc' |]. split; [exact Hnc' |].
  split; [| split; [exact HW' |]].
  - apply (@role_ok_ext Read _ _ _ _ _ (db sh)); [exact (Hrd eq_refl) | exact HR].
  - unfold main_ok, started in *. norm.
    destruct m; try contradiction; split_hyps; repeat split; auto.
Qed.

Lemma ok_inv_step (t : Tid) (s s' : St) :
  ok_inv d dp rsR pR rsW pW s -> step ctx t s = Some s' -> ok_inv d dp rsR pR rsW pW s'.
Proof.
  intros Hinv Hstep. unfold step in Hstep.
  destruct (crashed (shared s)) eqn:Hc; [discriminate |].
  destruct t.
  - exact (@ok_inv_main s s' Hinv Hstep).
  - exact (@ok_inv_closer s s' Hinv Hstep).
  - destruct (worker_step ctx Read _ _ _) as [[[pc' m'] sh'] |] eqn:Hw; [| discriminate].
    inv_some. exact (@ok_inv_read s pc' m' sh' Hinv Hw).
  - destruct (worker_step ctx Write _ _ _) as [[[pc' m'] sh'] |] eqn:Hw; [| discriminate].
    inv_some. exact (@ok_inv_write s pc' m' sh' Hinv Hw).
Qed.

Lemma ok_inv_start (w : World) : ok_inv d dp rsR pR rsW pW (NewConnection d dp w).
Proof.
  unfold ok_inv. split; [reflexivity |]. split; [apply nc_inv_start |].
  cbn. repeat split.
Qed.

Lemma role_ok_enabled (role : DBProxies) (wanted : bool) (rs : dbSecret) (p : Pool)
      (pc : WorkerPC) (dbv : AWSDB) (m : MainPC) (sh : Shared) :
  role_ok role wanted rs p d pc dbv ->
  live pc = 1%Z ->
  exists r, worker_step ctx role pc m sh = Some r.
Proof.
  intros Hok Hl. apply worker_step_enabled.
  destruct pc; cbn in *; try contradiction; try discriminate; exact I.
Qed.

Lemma ok_inv_progress (s : St) :
  ok_inv d dp rsR pR rsW pW s ->
  returned s = None ->
  exists t s', step ctx t s = Some s'.
Proof.
  intros (Hc & Hnc & HR & HW & Hm) Hret.
  destruct s as [sh m k r w]. unfold step. norm. rewrite Hc.
  unfold main_ok in Hm. norm.
  destruct m; try contradiction; try discriminate;
    try (exists T_main; unfold main_step; norm;
         repeat match goal with |- context [if ?b then _ else _] => destruct b end;
         eexists; reflexivity).
  destruct (live_range r) as [Hr | Hr].
  - destruct (live_range w) as [Hw | Hw].
    + unfold nc_inv in Hnc. norm. destruct Hnc as (Hwg & Hk & _).
      rewrite Hr, Hw in Hwg. inversion Hk; subst.
      * exists T_closer. unfold closer_step. norm. rewrite Hwg. eexists; reflexivity.
      * exists T_closer. unfold closer_step. norm.
        try match goal with H : false = closed sh |- _ => rewrite <- H end.
        eexists; reflexivity.
      * exists T_main. unfold main_step. norm.
        try match goal with H : true = closed sh |- _ => rewrite <- H end.
        eexists; reflexivity.
    + destruct (@role_ok_enabled Write _ _ _ _ _ M_range sh HW Hw) as ([[pc' m'] sh'] & He).
      exists T_write. rewrite He. eexists; reflexivity.
  - destruct (@role_ok_enabled Read _ _ _ _ _ M_range sh HR Hr) as ([[pc' m'] sh'] & He).
    exists T_read. rewrite He. eexists; reflexivity.
Qed.

End Success.

(** X3. When the role is one of the three and every [connect] it starts
    succeeds, the call returns, and under every schedule: nothing panics,
    some goroutine can move until the call has returned, the only value
    returned is nil, and by then each requested pool is in its field while
    a field that was not requested is as it was. *)
Theorem NewConnection_success (d : AWSDB) (dp : DBProxies) (w : World)
        (rsR : dbSecret) (pR : Pool) (rsW : dbSecret) (pW : Pool) :
  dp = Read \/ dp = Write \/ dp = ReadAndWrite ->
  (wants dp Read = true -> connect_ok ctx Read rsR pR) ->
  (wants dp Write = true -> connect_ok ctx Write rsW pW) ->
  (exists sched s,
     run ctx sched (NewConnection d dp w) = Some s /\ returned s = Some None)
  /\ forall sched s,
       run ctx sched (NewConnection d dp w) = Some s ->
       crashed (shared s) = None
       /\ (returned s = None -> exists t s', step ctx t s = Some s')
       /\ forall r, returned s = Some r ->
            r = None
            /\ reader (db (shared s)) = (if wants dp Read then Some pR else reader d)
            /\ writer (db (shared s)) = (if wants dp Write then Some pW else writer d).
Proof.
  intros Hv HokR HokW. split.
  - destruct (@runs_to_return (ok_inv d dp rsR pR rsW pW)
                (fun s H => @nc_inv_spawn_ok s (proj1 (proj2 H)))
                (@ok_inv_step d dp rsR pR rsW pW Hv HokR HokW)
                (@ok_inv_progress d dp rsR pR rsW pW) 20 (NewConnection d dp w)
                ltac:(cbn; lia) (ok_inv_start d dp rsR pR rsW pW w))
      as (sched & s & r & Hrun & Hinv & Hret).
    exists sched, s. split; [exact Hrun |].
    destruct Hinv as (_ & _ & _ & _ & Hm). rewrite Hret.
    unfold returned in Hret. unfold main_ok in Hm.
    destruct (mainpc s); try discriminate. inversion Hret; subst.
    destruct Hm as (-> & _). reflexivity.
  - intros sched s Hrun.
    assert (Hinv : ok_inv d dp rsR pR rsW pW s).
    { refine (@run_invariant _ ctx (ok_inv d dp rsR pR rsW pW) _ sched
                (NewConnection d dp w) s _ Hrun).
      - intros t s0 s1. apply (@ok_inv_step d dp rsR pR rsW pW Hv HokR HokW).
      - apply ok_inv_start. }
    split; [apply Hinv |]. split.
    + apply (@ok_inv_progress d dp rsR pR rsW pW s Hinv).
    + intros r Hr.
      destruct Hinv as (Hc & Hnc & HR & HW & Hm).
      destruct s as [sh m k rd wr]. unfold returned in Hr. norm.
      destruct m; try discriminate. inversion Hr; subst.
      unfold main_ok, started in Hm. norm. destruct Hm as (-> & HsR & HsW).
      split; [reflexivity |].
      unfold nc_inv in Hnc. norm. destruct Hnc as (Hwg & Hk & Hz & Hcl).
      specialize (Hcl eq_refl). rewrite Hcl in Hk. inversion Hk; subst.
      specialize (Hz ltac:(discriminate)).
      assert (Hlr : live rd = 0%Z) by (destruct (live_range rd), (live_range wr); lia).
      assert (Hlw : live wr = 0%Z) by (destruct (live_range rd), (live_range wr); lia).
      unfold role_ok in HR, HW.
      split.
      * destruct rd; cbn in Hlr; try discriminate; try contradiction.
        -- destruct (wants dp Read); [exfalso; apply HsR; reflexivity | exact HR].
        -- destruct HR as (-> & HR). exact HR.
      * destruct wr; cbn in Hlw; try discriminate; try contradiction.
        -- destruct (wants dp Write); [exfalso; apply HsW; reflexivity | exact HW].
        -- destruct HW as (-> & HW). exact HW.
Qed.


(** ** Ping *)

Lemma field_pool (role : DBProxies) (d : AWSDB) (p : Pool) :
  field role d = Some p -> reader d = Some p \/ writer d = Some p.
Proof. unfold field. destruct (String.eqb role Read); auto. Qed.

(** What one statement of a [pingProxy] does. *)
Lemma probe_step (role : DBProxies) (d : AWSDB) (pc pc' : WorkerPC) (m m' : MainPC)
      (sh sh' : Shared) :
  role = Read \/ role = Write ->
  crashed sh = None ->
  db sh = d ->
  probe_ok ctx role d pc ->
  (live pc <= wg sh)%Z ->
  worker_step ctx role pc m sh = Some (pc', m', sh') ->
  db sh' = d
  /\ next_addr (world sh') = next_addr (world sh)
  /\ ticks (world sh') = ticks (world sh)
  /\ (exists tail, calls (world sh') = calls (world sh) ++ tail
                   /\ Forall (is_ping_of ctx d) tail)
  /\ probe_ok ctx role d pc'
  /\ closed sh' = closed sh
  /\ ((pc = W_deferred /\ pc' = W_exited /\ m' = m /\ wg sh' = (wg sh - 1)%Z
       /\ crashed sh' = None)
      \/ (live pc = 1%Z /\ live pc' = 1%Z /\ wg sh' = wg sh
          /\ ((m' = m /\ crashed sh' = None)
              \/ (m' = m /\ crashed sh' = Some "send on closed channel"
                  /\ exists e, pc' = W_send e)
              \/ (exists e, m = M_range /\ m' = M_returned (Some e)
                            /\ crashed sh' = None /\ probe_error ctx d e)))).
Proof.
  intros Hrole Hc Hdb Hpc Hwg Hstep. subst d.
  unfold probe_ok in Hpc.
  destruct pc; try contradiction; cbn in Hstep; try discriminate.
  - destruct Hpc as (p & Hp).
    assert (Hb : String.eqb role Read || String.eqb role Write = true)
      by (destruct Hrole as [-> | ->]; reflexivity).
    rewrite Hb in Hstep. unfold ping_field in Hstep. rewrite Hp in Hstep.
    cbn in Hstep.
    destruct (pool_Ping p ctx) as [e |] eqn:Hping; inv_some; cbn;
      (split; [first [reflexivity | assumption] |]); (split; [first [reflexivity | assumption] |]); (split; [first [reflexivity | assumption] |]);
      (split; [exists [CallPing p ctx]; split; [first [reflexivity | assumption] |];
               constructor; [exists p; split; [reflexivity | exact (field_pool _ _ Hp)]
                            | constructor] |]).
    + split; [exists p; split; assumption |]. split; [first [reflexivity | assumption] |].
      right. repeat split; auto.
    + split; [exists p; assumption |]. split; [first [reflexivity | assumption] |].
      right. repeat split; auto.
  - destruct Hpc as (p & Hp & Hping).
    destruct (closed sh) eqn:Hcl.
    + inv_some. cbn.
      split; [first [reflexivity | assumption] |]. split; [first [reflexivity | assumption] |]. split; [first [reflexivity | assumption] |].
      split; [exists []; split; [symmetry; apply app_nil_r | constructor] |].
      split; [exists p; split; assumption |]. split; [first [reflexivity | assumption] |].
      right. repeat split; auto. right. left. repeat split; auto. eexists; reflexivity.
    + destruct m; try discriminate. inv_some. cbn.
      split; [first [reflexivity | assumption] |]. split; [first [reflexivity | assumption] |]. split; [first [reflexivity | assumption] |].
      split; [exists []; split; [symmetry; apply app_nil_r | constructor] |].
      split; [exists p; exact Hp |]. split; [first [reflexivity | assumption] |].
      right. repeat split; auto. right. right. exists e. repeat split; auto.
      exists p. split; [exact (field_pool _ _ Hp) | exact Hping].
  - inv_some. change (live W_deferred) with 1%Z in Hwg. rewrite wg_Done_pos by lia. cbn.
    split; [first [reflexivity | assumption] |]. split; [first [reflexivity | assumption] |]. split; [first [reflexivity | assumption] |].
    split; [exists []; split; [symmetry; apply app_nil_r | constructor] |].
    split; [exact Hpc |]. split; [first [reflexivity | assumption] |].
    left. repeat split; auto.
Qed.

Lemma isNil_false {A : Type} (o : option A) : isNil o = false -> exists a, o = Some a.
Proof. destruct o; [eexists; reflexivity | discriminate]. Qed.

Lemma isNil_Some {A : Type} (o : option A) : o <> None -> exists a, o = Some a.
Proof. destruct o; [eexists; reflexivity | congruence]. Qed.

Section PingInv.

Variables (d : AWSDB) (w : World).

Lemma ping_inv_main (s s' : St) :
  crashed (shared s) = None ->
  ping_inv ctx d w s -> main_step s = Some s' -> ping_inv ctx d w s'.
Proof.
  intros Hc (Hdb & Hna & Htk & Hcalls & HpR & HpW & Hwg & Hm & Hcr) Hstep.
  destruct s as [sh m k r wr]. unfold main_step in Hstep.
  unfold none_started in *. norm.
  assert (Hlr := live_range r). assert (Hlw := live_range wr).
  destruct m; try contradiction; split_hyps; subst; live_norm; norm.
  - inv_some. unfold ping_inv, none_started. norm. repeat split; auto.
    rewrite H0. constructor.
  - destruct (isNil (reader (db sh))) eqn:Hn; inv_some;
      rewrite ?wg_Add_nonneg by lia;
      unfold ping_inv, none_started; norm; live_norm; repeat split; auto; try lia.
    intros Habs. rewrite Habs in Hn. discriminate.
  - inv_some. unfold ping_inv, none_started. norm. live_norm. repeat split; auto; try lia.
    unfold field. cbn. apply isNil_Some. assumption.
  - destruct (isNil (writer (db sh))) eqn:Hn; inv_some;
      rewrite ?wg_Add_nonneg by lia;
      unfold ping_inv, none_started; norm; live_norm; repeat split; auto; try lia.
    intros Habs. rewrite Habs in Hn. discriminate.
  - inv_some. unfold ping_inv, none_started. norm. live_norm. repeat split; auto; try lia.
    unfold field. cbn. apply isNil_Some. assumption.
  - destruct (closed sh) eqn:Hcl; [| discriminate]. inv_some.
    unfold ping_inv. norm. rewrite Hcl. repeat split; auto. discriminate.
  - discriminate.
Qed.

Lemma ping_inv_closer (s s' : St) :
  crashed (shared s) = None ->
  ping_inv ctx d w s -> closer_step s = Some s' -> ping_inv ctx d w s'.
Proof.
  intros Hc (Hdb & Hna & Htk & Hcalls & HpR & HpW & Hwg & Hm & Hcr) Hstep.
  destruct s as [sh m k r wr]. unfold closer_step in Hstep.
  unfold none_started in *. norm.
  destruct k; try discriminate.
  - destruct (wg sh =? 0)%Z; [| discriminate]. inv_some.
    unfold ping_inv, none_started. norm. repeat split; auto.
    destruct m; try contradiction; split_hyps; try discriminate; repeat split; auto;
      match goal with H : closer_at K_wait _ |- _ => inversion H; constructor end.
  - assert (Hcl : closed sh = false).
    { destruct m; try contradiction; split_hyps; try discriminate;
        match goal with H : closer_at K_close _ |- _ => inversion H; reflexivity end. }
    rewrite Hcl in Hstep. inv_some.
    unfold ping_inv, none_started. norm. repeat split; auto.
    destruct m; try contradiction; split_hyps; try discriminate; repeat split; auto;
      constructor.
Qed.

Lemma ping_inv_wg_read (s : St) :
  ping_inv ctx d w s -> (live (readpc s) <= wg (shared s))%Z.
Proof.
  intros (_ & _ & _ & _ & _ & _ & Hwg & _).
  assert (0 <= pending_add (mainpc s))%Z by (destruct (mainpc s); cbn; lia).
  destruct (live_range (readpc s)), (live_range (writepc s)); lia.
Qed.

Lemma ping_inv_wg_write (s : St) :
  ping_inv ctx d w s -> (live (writepc s) <= wg (shared s))%Z.
Proof.
  intros (_ & _ & _ & _ & _ & _ & Hwg & _).
  assert (0 <= pending_add (mainpc s))%Z by (destruct (mainpc s); cbn; lia).
  destruct (live_range (readpc s)), (live_range (writepc s)); lia.
Qed.

Lemma calls_extend (c0 mid tail : list Call) (P : Call -> Prop) (x y : list Call) :
  x = c0 ++ mid -> Forall P mid -> y = x ++ tail -> Forall P tail ->
  exists t, y = c0 ++ t /\ Forall P t.
Proof.
  intros -> Hm -> Ht. exists (mid ++ tail). split.
  - symmetry. apply app_assoc.
  - apply Forall_app. split; assumption.
Qed.

Lemma ping_inv_read (s : St) (pc' : WorkerPC) (m' : MainPC) (sh' : Shared) :
  crashed (shared s) = None ->
  ping_inv ctx d w s ->
  worker_step ctx Read (readpc s) (mainpc s) (shared s) = Some (pc', m', sh') ->
  ping_inv ctx d w (MkSt sh' m' (closerpc s) pc' (writepc s)).
Proof.
  intros Hc Hinv Hstep. pose proof (ping_inv_wg_read Hinv) as Hle.
  destruct Hinv as (Hdb & Hna & Htk & (t0 & Hcalls & Ht0) & HpR & HpW & Hwg & Hm & Hcr).
  destruct (@probe_step Read d (readpc s) pc' (mainpc s) m' (shared s) sh'
              (or_introl eq_refl) Hc Hdb HpR Hle Hstep)
    as (Hdb' & Hna' & Htk' & (t1 & Hc1 & Ht1) & HpR' & Hcl' & Hcase).
  assert (Hne : readpc s <> W_absent).
  { intros Habs. rewrite Habs in Hstep. discriminate. }
  destruct s as [sh m k r wr]. unfold none_started in *. norm.
  unfold ping_inv, none_started. norm.
  split; [exact Hdb' |]. split; [congruence |]. split; [congruence |].
  split; [exact (calls_extend _ Hcalls Ht0 Hc1 Ht1) |].
  split; [exact HpR' |]. split; [exact HpW |].
  rewrite Hcl'.
  destruct Hcase as [(-> & -> & -> & Hwg' & Hc') | (Hl & Hl' & Hwg' & Hcase)].
  - live_norm. split; [lia |]. split; [| left; exact Hc'].
    destruct m; try contradiction; split_hyps; repeat split; auto; congruence.
  - rewrite Hl in Hwg. rewrite Hl', Hwg'.
    destruct Hcase as [(-> & Hc') | [(-> & Hc' & e & ->) | (e & -> & -> & Hc' & Hpe)]].
    + split; [lia |]. split; [| left; exact Hc'].
      destruct m; try contradiction; split_hyps; repeat split; auto; congruence.
    + split; [lia |]. split; [| right; split; [exact Hc' | exists e; left; reflexivity]].
      destruct m; try contradiction; split_hyps; repeat split; auto; congruence.
    + norm. split; [lia |]. split; [| left; exact Hc'].
      split; [exact Hm |]. intros e0 He0. inversion He0; subst. exact Hpe.
Qed.

Lemma ping_inv_write (s : St) (pc' : WorkerPC) (m' : MainPC) (sh' : Shared) :
  crashed (shared s) = None ->
  ping_inv ctx d w s ->
  worker_step ctx Write (writepc s) (mainpc s) (shared s) = Some (pc', m', sh') ->
  ping_inv ctx d w (MkSt sh' m' (closerpc s) (readpc s) pc').
Proof.
  intros Hc Hinv Hstep. pose proof (ping_inv_wg_write Hinv) as Hle.
  destruct Hinv as (Hdb & Hna & Htk & (t0 & Hcalls & Ht0) & HpR & HpW & Hwg & Hm & Hcr).
  destruct (@probe_step Write d (writepc s) pc' (mainpc s) m' (shared s) sh'
              (or_intror eq_refl) Hc Hdb HpW Hle Hstep)
    as (Hdb' & Hna' & Htk' & (t1 & Hc1 & Ht1) & HpW' & Hcl' & Hcase).
  assert (Hne : writepc s <> W_absent).
  { intros Habs. rewrite Habs in Hstep. discriminate. }
  destruct s as [sh m k r wr]. unfold none_started in *. norm.
  unfold ping_inv, none_started. norm.
  split; [exact Hdb' |]. split; [congruence |]. split; [congruence |].
  split; [exact (calls_extend _ Hcalls Ht0 Hc1 Ht1) |].
  split; [exact HpR |]. split; [exact HpW' |].
  rewrite Hcl'.
  destruct Hcase as [(-> & -> & -> & Hwg' & Hc') | (Hl & Hl' & Hwg' & Hcase)].
  - live_norm. split; [lia |]. split; [| left; exact Hc'].
    destruct m; try contradiction; split_hyps; repeat split; auto; congruence.
  - rewrite Hl in Hwg. rewrite Hl', Hwg'.
    destruct Hcase as [(-> & Hc') | [(-> & Hc' & e & ->) | (e & -> & -> & Hc' & Hpe)]].
    + split; [lia |]. split; [| left; exact Hc'].
      destruct m; try contradiction; split_hyps; repeat split; auto; congruence.
    + split; [lia |]. split; [| right; split; [exact Hc' | exists e; right; reflexivity]].
      destruct m; try contradiction; split_hyps; repeat split; auto; congruence.
    + norm. split; [lia |]. split; [| left; exact Hc'].
      split; [exact Hm |]. intros e0 He0. inversion He0; subst. exact Hpe.
Qed.

Lemma ping_inv_step (t : Tid) (s s' : St) :
  ping_inv ctx d w s -> step ctx t s = Some s' -> ping_inv ctx d w s'.
Proof.
  intros Hinv Hstep. unfold step in Hstep.
  destruct (crashed (shared s)) eqn:Hc; [discriminate |].
  destruct t.
  - exact (@ping_inv_main s s' Hc Hinv Hstep).
  - exact (@ping_inv_closer s s' Hc Hinv Hstep).
  - destruct (worker_step ctx Read _ _ _) as [[[pc' m'] sh'] |] eqn:Hw; [| discriminate].
    inv_some. exact (@ping_inv_read s pc' m' sh' Hc Hinv Hw).
  - destruct (worker_step ctx Write _ _ _) as [[[pc' m'] sh'] |] eqn:Hw; [| discriminate].
    inv_some. exact (@ping_inv_write s pc' m' sh' Hc Hinv Hw).
Qed.

Lemma ping_inv_start : ping_inv ctx d w (Ping d w).
Proof.
  unfold ping_inv, none_started. cbn. repeat split; auto.
  exists []. split; [symmetry; apply app_nil_r | constructor].
Qed.

Lemma ping_inv_run (sched : list Tid) (s : St) :
  run ctx sched (Ping d w) = Some s -> ping_inv ctx d w s.
Proof.
  refine (@run_invariant _ ctx (ping_inv ctx d w) _ sched (Ping d w) s _).
  - intros t s0 s1. apply ping_inv_step.
  - apply ping_inv_start.
Qed.

Lemma ping_inv_spawn_ok (s : St) : ping_inv ctx d w s -> spawn_ok s.
Proof.
  intros (_ & _ & _ & _ & _ & _ & _ & Hm & _).
  destruct s as [sh m k r wr]. unfold spawn_ok, none_started in *. norm.
  destruct m; try contradiction; split_hyps; repeat split; auto.
Qed.

End PingInv.


(** X6. Whatever the pools answer and however the goroutines are scheduled,
    a call of [Ping] runs at most 21 statements. *)
Theorem Ping_terminates (d : AWSDB) (w : World) (sched : list Tid) (s : St) :
  run ctx sched (Ping d w) = Some s -> length sched <= 21.
Proof.
  intros Hrun.
  pose proof (@steps_left_run (ping_inv ctx d w) (@ping_inv_spawn_ok d w)
                (@ping_inv_step d w) sched (Ping d w) s (ping_inv_start d w) Hrun) as H.
  cbn in H. lia.
Qed.

Section Healthy.

Variables (d : AWSDB) (w : World).

Hypothesis healthy :
  forall p, reader d = Some p \/ writer d = Some p -> pool_Ping p ctx = None.

Lemma healthy_no_send (role : DBProxies) (pc : WorkerPC) :
  probe_ok ctx role d pc -> live pc = 1%Z ->
  match pc with W_absent | W_exited | W_send _ => False | _ => True end.
Proof.
  destruct pc; cbn; try contradiction; try discriminate; auto.
  intros (p & Hp & Hping) _.
  rewrite (healthy (field_pool _ _ Hp)) in Hping. discriminate.
Qed.

Lemma healthy_not_crashed (s : St) : ping_inv ctx d w s -> crashed (shared s) = None.
Proof.
  intros (_ & _ & _ & _ & HpR & HpW & _ & _ & [Hc | (_ & e & [He | He])]);
    [exact Hc | |]; exfalso.
  - rewrite He in HpR. exact (healthy_no_send _ _ HpR eq_refl).
  - rewrite He in HpW. exact (healthy_no_send _ _ HpW eq_refl).
Qed.

Lemma healthy_progress (s : St) :
  ping_inv ctx d w s -> returned s = None -> exists t s', step ctx t s = Some s'.
Proof.
  intros Hinv Hret. pose proof (healthy_not_crashed Hinv) as Hc.
  destruct Hinv as (_ & _ & _ & _ & HpR & HpW & Hwg & Hm & _).
  destruct s as [sh m k r wr]. unfold step. norm. rewrite Hc.
  destruct m; try contradiction; try discriminate;
    try (exists T_main; unfold main_step; norm;
         repeat match goal with |- context [if ?b then _ else _] => destruct b end;
         eexists; reflexivity).
  destruct (live_range r) as [Hr | Hr].
  - destruct (live_range wr) as [Hw | Hw].
    + rewrite Hr, Hw in Hwg. norm. inversion Hm; subst.
      * exists T_closer. unfold closer_step. norm. rewrite Hwg. eexists; reflexivity.
      * exists T_closer. unfold closer_step. norm.
        try match goal with H : false = closed sh |- _ => rewrite <- H end.
        eexists; reflexivity.
      * exists T_main. unfold main_step. norm.
        try match goal with H : true = closed sh |- _ => rewrite <- H end.
        eexists; reflexivity.
    + destruct (@worker_step_enabled Write wr M_range sh (healthy_no_send _ _ HpW Hw))
        as ([[pc' m'] sh'] & He).
      exists T_write. rewrite He. eexists; reflexivity.
  - destruct (@worker_step_enabled Read r M_range sh (healthy_no_send _ _ HpR Hr))
      as ([[pc' m'] sh'] & He).
    exists T_read. rewrite He. eexists; reflexivity.
Qed.

End Healthy.

(** X7. When every pool of the connector answers the liveness check (also
    when the connector has no pool at all), [Ping] returns, and under
    every schedule it does not panic, some goroutine can move until it
    has returned, and the only value it returns is nil. *)
Theorem Ping_healthy (d : AWSDB) (w : World) :
  (forall p, reader d = Some p \/ writer d = Some p -> pool_Ping p ctx = None) ->
  (exists sched s, run ctx sched (Ping d w) = Some s /\ returned s = Some None)
  /\ forall sched s,
       run ctx sched (Ping d w) = Some s ->
       crashed (shared s) = None
       /\ (returned s = None -> exists t s', step ctx t s = Some s')
       /\ forall r, returned s = Some r -> r = None.
Proof.
  intros Hh.
  assert (Hnil : forall s r, ping_inv ctx d w s -> returned s = Some r -> r = None).
  { intros s r (_ & _ & _ & _ & _ & _ & _ & Hm & _) Hr. unfold returned in Hr.
    destruct (mainpc s); try discriminate. inversion Hr; subst.
    destruct r as [e |]; [| reflexivity].
    destruct Hm as (_ & Hm). destruct (Hm e eq_refl) as (p & Hp & Hping).
    rewrite (Hh p Hp) in Hping. discriminate. }
  split.
  - destruct (@runs_to_return (ping_inv ctx d w) (@ping_inv_spawn_ok d w)
                (@ping_inv_step d w) (@healthy_progress d w Hh) 21 (Ping d w)
                ltac:(cbn; lia) (ping_inv_start d w))
      as (sched & s & r & Hrun & Hinv & Hret).
    exists sched, s. split; [exact Hrun |]. rewrite Hret.
    rewrite (Hnil s r Hinv Hret). reflexivity.
  - intros sched s Hrun. pose proof (@ping_inv_run d w sched s Hrun) as Hinv.
    split; [exact (@healthy_not_crashed d w Hh s Hinv) |]. split.
    + exact (@healthy_progress d w Hh s Hinv).
    + intros r Hr. exact (Hnil s r Hinv Hr).
Qed.


Lemma getValuesAWS_secret_fails (ds : dbSecret) (name : string) (w : World)
      (o : option string) (e0 : error) :
  session_NewSession = None ->
  secrets_GetSecretValue name = (o, Some e0) ->
  getValuesAWS ds name w
  = (Val (ds, Some (MkError (next_addr w) "secret not found" None)),
     MkWorld (N.succ (next_addr w)) (calls w ++ [CallGetSecretValue name]) (ticks w)).
Proof.
  intros Hs Hg. unfold getValuesAWS, GetSecret, bind, emit. rewrite Hs. cbn.
  rewrite Hg. destruct o; reflexivity.
Qed.

(** X4. When the secrets service fails for the secret of a single role, the
    error [NewConnection] returns is the new error "secret not found"
    (whatever the service said), the only library call made is that one
    lookup (no pool is opened or pinged), and the connector is untouched. *)
Theorem NewConnection_secret_not_found (d : AWSDB) (dp : DBProxies) (w : World)
        (o : option string) (e0 : error) (sched : list Tid) (s : St)
        (r : option error) :
  dp = Read \/ dp = Write ->
  field dp d = None ->
  session_NewSession = None ->
  secrets_GetSecretValue (secretNames dp) = (o, Some e0) ->
  run ctx sched (NewConnection d dp w) = Some s ->
  returned s = Some r ->
  r = Some (MkError (next_addr w) "secret not found" None)
  /\ calls (world (shared s)) = calls w ++ [CallGetSecretValue (secretNames dp)]
  /\ db (shared s) = d.
Proof.
  intros Hrole Habs Hs Hg Hrun Hret.
  pose proof (@fails_secret _ ctx dp w zero_dbSecret _ _
                (@getValuesAWS_secret_fails zero_dbSecret (secretNames dp) w o e0 Hs Hg)) as Hf.
  pose proof (@solo_reach_run _ ctx d dp w _ _ _ sched s Hrole Habs Hf Hrun) as Hreach.
  destruct d as [rd wr].
  destruct Hrole as [-> | ->]; cbn in Habs; subst;
    destruct Hreach; cbn in Hret; try discriminate; inversion Hret; subst;
    cbn; repeat split.
Qed.

End BarrierTheorems.

(* ================================================================== *)
(** * Theorems: batches, routes, Close, secrets, the callback, the examples *)
(* ================================================================== *)

Section MoreTheorems.
Context {E : Extern}.

Lemma append_assoc (a b c : string) : ((a ++ b) ++ c = a ++ (b ++ c))%string.
Proof. induction a as [| x a IH]; cbn; [reflexivity | now rewrite IH]. Qed.

Lemma append_nil_r (a : string) : (a ++ "" = a)%string.
Proof. induction a as [| x a IH]; cbn; [reflexivity | now rewrite IH]. Qed.

Lemma rangeCols_concat (n i : Z) (cols : list string) (sql : string) :
  cols <> [] ->
  (i + Z.of_nat (length cols) = n)%Z ->
  rangeCols n i cols sql = (sql ++ String.concat ", " cols ++ " ")%string.
Proof.
  revert i sql. induction cols as [| c rest IH]; intros i sql Hne Hlen; [congruence |].
  cbn [rangeCols]. destruct rest as [| c' rest'].
  - cbn in Hlen. destruct (Z.ltb_spec i (n - 1)); [lia |]. reflexivity.
  - rewrite IH; [| discriminate | cbn [length] in *; lia].
    cbn [length] in Hlen. destruct (Z.ltb_spec i (n - 1)); [| lia].
    cbn [String.concat]. rewrite !append_assoc. reflexivity.
Qed.

(** X15. The SQL of [getByID] lists the columns separated by a comma and a
    space, with no comma after the last one and one space before FROM;
    with no column at all the text is "SELECT FROM ...". *)
Theorem selectByID_text (cols : list string) :
  selectByID cols =
    ("SELECT " ++ String.concat ", " cols
     ++ (match cols with [] => "" | _ => " " end)
     ++ "FROM ccm.customer_profile WHERE id = $1")%string.
Proof.
  unfold selectByID. destruct cols as [| c rest].
  - reflexivity.
  - rewrite rangeCols_concat; [| discriminate | lia].
    rewrite !append_assoc. reflexivity.
Qed.

Example selectByID_customer_profile :
  selectByID customer_profile_cols =
    "SELECT id, user_id, curp, first_name, last_name_1, birth_date, email, created_tms, update_tms FROM ccm.customer_profile WHERE id = $1".
Proof. reflexivity. Qed.


(** ** Batches *)

Lemma existsb_canWrite_perm (l1 l2 : list tree_Statement) :
  Permutation l1 l2 -> existsb canWrite l1 = existsb canWrite l2.
Proof.
  induction 1 as [| x l l' _ IH | x y l | l l' l'' _ IH1 _ IH2]; cbn.
  - reflexivity.
  - now rewrite IH.
  - destruct (canWrite x), (canWrite y); reflexivity.
  - now rewrite IH1.
Qed.

(** X8. The classification of a batch: no statement at all is [Read]; two
    batches put together are [Write] exactly when one of them is; and the
    order of the statements does not matter. *)
Theorem rangeStatements_batches (l1 l2 : list tree_Statement) :
  rangeStatements [] = (Read, None)
  /\ rangeStatements (l1 ++ l2)
     = (if String.eqb (fst (rangeStatements l1)) Write then (Write, None)
        else rangeStatements l2)
  /\ (Permutation l1 l2 -> rangeStatements l1 = rangeStatements l2).
Proof.
  split; [reflexivity |]. split.
  - rewrite !rangeStatements_existsb, existsb_app.
    destruct (existsb canWrite l1); reflexivity.
  - intros Hp. rewrite !rangeStatements_existsb, (existsb_canWrite_perm Hp). reflexivity.
Qed.

(** ** Query and QueryRow take the same route *)

Lemma selected_pool (d : AWSDB) (proxy : DBProxies) (p : Pool) :
  selected d proxy = Some p -> reader d = Some p \/ writer d = Some p.
Proof. unfold selected. destruct (String.eqb proxy Read); auto. Qed.

(** X9. For every connector, SQL and arguments, [Query] and [QueryRow] do
    not panic and take the same route: either both stop before any pool
    is called, with the same error (returned by [Query], held by the row
    of [QueryRow] and returned by its [Scan]) and the same world, or both
    make their one call on the same pool of the connector. *)
Theorem Query_QueryRow_same_route (d : AWSDB) (ctx : Ctx) (sql : string)
        (args : list Any) (w : World) :
  (exists e w',
     Query d ctx sql args w = (Val (None, Some e), w')
     /\ QueryRow d ctx sql args w
        = (Val (Some (ProxyErrorRow (MkDBProxyError (Some e)))), w')
     /\ (forall dest, QueryRow_Scan d ctx sql args dest w = (Val (Some e), w'))
     /\ calls w' = calls w)
  \/ (exists p,
        (reader d = Some p \/ writer d = Some p)
        /\ Query d ctx sql args w
           = (Val (pool_Query p ctx sql args),
              MkWorld (next_addr w) (calls w ++ [CallQuery p ctx sql args]) (ticks w))
        /\ QueryRow d ctx sql args w
           = (Val (option_map PooledRow (pool_QueryRow p ctx sql args)),
              MkWorld (next_addr w) (calls w ++ [CallQueryRow p ctx sql args]) (ticks w))).
Proof.
  unfold QueryRow_Scan, Query, QueryRow.
  destruct (getProxyFromSQL sql) as [proxy [e |]].
  - left. eexists. eexists. cbn. repeat split.
  - destruct (String.eqb proxy Read).
    + destruct (reader d) as [p |] eqn:Hp; cbn.
      * right. exists p. repeat split. auto.
      * left. eexists. eexists. repeat split.
    + destruct (String.eqb proxy Write).
      * destruct (writer d) as [p |] eqn:Hp; cbn.
        -- right. exists p. repeat split. auto.
        -- left. eexists. eexists. repeat split.
      * left. eexists. eexists. cbn. repeat split.
Qed.

(** ** Close *)

(** X10. [Close] does not panic and closes each pool that is present exactly
    once, the reader before the writer; on a connector without pools it
    does nothing. *)
Theorem Close_closes_present (d : AWSDB) (w : World) :
  Close d w
  = (Val tt, MkWorld (next_addr w) (calls w ++ map CallClose (pools_of d)) (ticks w)).
Proof.
  unfold Close, pools_of, bind, emit, ret, deref.
  destruct w as [na cs tk].
  destruct (reader d) as [pr |], (writer d) as [pw |]; cbn;
    rewrite <- ?app_assoc, ?app_nil_r; reflexivity.
Qed.

(** ** aws.GetSecret *)

(** X11. When the secrets service fails, [GetSecret] makes its one call and
    returns the empty string with a new error that reads "secret not
    found": the error of the service is dropped, [errors.Is] does not find
    it. When the service answers, the secret string comes back as it is. *)
Theorem GetSecret_masks_cause (id : string) (w : World) :
  session_NewSession = None ->
  match secrets_GetSecretValue id with
  | (_, Some e0) =>
      GetSecret id w
      = (Val ("", Some (MkError (next_addr w) "secret not found" None)),
         MkWorld (N.succ (next_addr w)) (calls w ++ [CallGetSecretValue id]) (ticks w))
      /\ ((err_addr e0 < next_addr w)%N ->
          errors_Is (MkError (next_addr w) "secret not found" None) e0 = false)
  | (Some str, None) =>
      GetSecret id w = (Val (str, None), called w (CallGetSecretValue id))
  | (None, None) =>
      fst (GetSecret id w) = Panic nil_deref
  end.
Proof.
  intros Hs. unfold GetSecret. rewrite Hs. unfold bind, emit. cbn.
  destruct (secrets_GetSecretValue id) as [[str |] [e0 |]]; cbn;
    try reflexivity;
    (split; [reflexivity | intros H; exact (@errors_Is_fresh _ "secret not found" e0 H)]).
Qed.


(** ** The refresh callback over several connections *)

Lemma GetRDSAuthToken_ticks (ctx : Ctx) (host user : string) (port : Z) (w : World) :
  ticks (snd (GetRDSAuthToken ctx host user port w)) = ticks w.
Proof.
  destruct (GetRDSAuthToken_calls ctx host user port w) as (rest & _ & Ht). exact Ht.
Qed.

(** X12. The callback changes nothing of the credential record but the cached
    expiry; with a clock that does not run backwards the expiry never
    moves back; and when the callback returns an error the record is as it
    was. *)
Theorem BeforeConnect_keeps_parameters (ctx : Ctx) (ds : dbSecret) (c : Ctx)
        (cc : ConnConfig) (w : World) (ds' : dbSecret) (cc' : ConnConfig)
        (oe : option error) (w' : World) :
  monotone_clock ->
  BeforeConnect ctx ds c cc w = (Val (ds', cc', oe), w') ->
  (UserName ds', Engine ds', Host ds', Port ds', DBName ds')
  = (UserName ds, Engine ds, Host ds, Port ds, DBName ds)
  /\ (exp ds <= exp ds')%Z
  /\ (oe <> None -> ds' = ds).
Proof.
  intros Hmono H. rewrite BeforeConnect_unfold in H.
  destruct (After (clock (ticks w)) (exp ds)) eqn:HA.
  - pose proof (GetRDSAuthToken_ticks ctx (Host ds) (UserName ds) (Port ds) (ticked w)) as Ht.
    destruct (GetRDSAuthToken ctx (Host ds) (UserName ds) (Port ds) (ticked w))
      as [[[tok [e |]] | why] w1]; inversion H; subst; clear H.
    + repeat split; lia.
    + cbn in Ht. rewrite Ht. unfold After in HA. apply Z.ltb_lt in HA.
      pose proof (Hmono (ticks w)). unfold Add, time_Second.
      split; [reflexivity |]. split; [cbn; lia |]. intros Hn; congruence.
  - inversion H; subst. repeat split; lia.
Qed.

(** X13. When the token request fails, the callback returns that error, the
    password is overwritten with the string that came back, and the cached
    expiry stays as it was: every later call (the clock not running
    backwards) asks for a token again. *)
Theorem BeforeConnect_failure_retries (ctx : Ctx) (ds : dbSecret) (c : Ctx)
        (cc : ConnConfig) (w : World) (tok : string) (e : error) (w1 : World) :
  (exp ds < clock (ticks w))%Z ->
  GetRDSAuthToken ctx (Host ds) (UserName ds) (Port ds)
    (MkWorld (next_addr w) (calls w) (S (ticks w)))
  = (Val (tok, Some e), w1) ->
  BeforeConnect ctx ds c cc w = (Val (ds, MkConnConfig tok, Some e), w1)
  /\ forall (c2 : Ctx) (cc2 : ConnConfig) (w2 : World),
       (clock (ticks w) <= clock (ticks w2))%Z ->
       exists rest,
         calls (snd (BeforeConnect ctx ds c2 cc2 w2))
         = calls w2 ++ CallLoadDefaultConfig ctx :: rest.
Proof.
  intros HA HG. fold (ticked w) in HG.
  assert (HA' : After (clock (ticks w)) (exp ds) = true) by (apply Z.ltb_lt; exact HA).
  split.
  - rewrite BeforeConnect_unfold, HA', HG. reflexivity.
  - intros c2 cc2 w2 Hle. rewrite BeforeConnect_unfold.
    replace (After (clock (ticks w2)) (exp ds)) with true.
    + destruct (GetRDSAuthToken_calls ctx (Host ds) (UserName ds) (Port ds) (ticked w2))
        as (rest & Hc & _).
      exists rest.
      destruct (GetRDSAuthToken ctx (Host ds) (UserName ds) (Port ds) (ticked w2))
        as [[[tok2 [e2 |]] | why] w3]; cbn in *; exact Hc.
    + symmetry. apply Z.ltb_lt. lia.
Qed.

(** X14. When AWS_REGION was not set as the package aws was loaded, a callback
    that has to mint a token loads the default configuration and then
    panics on the nil region; no token is requested. *)
Theorem BeforeConnect_region_unset (ctx : Ctx) (ds : dbSecret) (c : Ctx)
        (cc : ConnConfig) (w : World) :
  awsConfig_Region = None ->
  snd (config_LoadDefaultConfig ctx) = None ->
  (exp ds < clock (ticks w))%Z ->
  BeforeConnect ctx ds c cc w
  = (Panic "invalid memory address or nil pointer dereference",
     MkWorld (next_addr w) (calls w ++ [CallLoadDefaultConfig ctx]) (S (ticks w))).
Proof.
  intros Hr Hcfg HA.
  assert (HA' : After (clock (ticks w)) (exp ds) = true) by (apply Z.ltb_lt; exact HA).
  rewrite BeforeConnect_unfold, HA'.
  unfold GetRDSAuthToken, bind, emit. cbn.
  destruct (config_LoadDefaultConfig ctx) as [cfg oe]. cbn in Hcfg. subst oe.
  rewrite Hr. reflexivity.
Qed.

(** ** The test double *)

(** X16. [mockAWSDB.NewConnection] stores its mock pools in the fields of the
    test double and never touches the embedded connector: after it, for
    every role and whether or not it failed, the promoted methods still
    see no pool, so [Exec] returns [ErrWriterNotCreated] on a double that
    was "connected" for writing as well. *)
Theorem mock_NewConnection_embedded (MockPool : Type)
        (pgxmock_NewPool : option MockPool * option error)
        (md : mockAWSDB MockPool) (ctx : Ctx) (dp : DBProxies) (w : World) :
  exists md' oe w',
    mock_NewConnection pgxmock_NewPool md ctx dp w = (Val (md', oe), w')
    /\ embedded md' = embedded md
    /\ calls w' = calls w
    /\ (md = zero_mock MockPool ->
        forall sql args,
          Exec (embedded md') ctx sql args w' = (Val (None, Some ErrWriterNotCreated), w')).
Proof.
  unfold mock_NewConnection.
  destruct pgxmock_NewPool as [pool [e |]].
  - eexists. eexists. eexists. split; [reflexivity |]. repeat split.
    intros ->. reflexivity.
  - destruct (String.eqb dp Read); [| destruct (String.eqb dp Write);
      [| destruct (String.eqb dp ReadAndWrite)]];
      eexists; eexists; eexists; (split; [reflexivity |]); repeat split;
      intros ->; reflexivity.
Qed.

End MoreTheorems.

(* ================================================================== *)
(** * More concrete runs *)
(* ================================================================== *)

Section MoreRuns.

Import Sample.

Lemma run_result (E : Extern) (c : Ctx) (sched : list Tid) (s0 : St) (P : St -> Prop) :
  match run c sched s0 with Some s => P s | None => False end ->
  exists s, run c sched s0 = Some s /\ P s.
Proof.
  destruct (run c sched s0) as [s |]; [| contradiction].
  intros H. exists s. split; [reflexivity | exact H].
Qed.

(** A [Read] connection in the healthy sample world, run to its end. *)
Lemma NewConnection_nil_after_barrier_witness :
  exists s,
    @run (env healthy) tt
      [T_main; T_main; T_read; T_read; T_read; T_read; T_read; T_closer; T_closer; T_main]
      (NewConnection (no_pools _) Read (w0 _)) = Some s
    /\ returned s = Some None
    /\ closed (shared s) = true
    /\ wg (shared s) = 0%Z.
Proof.
  assert (H : exists s,
             @run (env healthy) tt
               [T_main; T_main; T_read; T_read; T_read; T_read; T_read; T_closer; T_closer;
                T_main]
               (NewConnection (no_pools _) Read (w0 _)) = Some s
             /\ returned s = Some None).
  { apply run_result. vm_compute. reflexivity. }
  destruct H as (s & Hrun & Hret). exists s.
  split; [exact Hrun |]. split; [exact Hret |].
  destruct (@NewConnection_nil_after_barrier (env healthy) tt (no_pools _) Read (w0 _)
              [T_main; T_main; T_read; T_read; T_read; T_read; T_read; T_closer; T_closer;
               T_main] s Hrun Hret) as (Hc & _ & Hw & _).
  split; [exact Hc | exact Hw].
Defined.

(** A [ReadAndWrite] connection in the healthy sample world, run to its
    end in 17 statements. *)
Lemma NewConnection_terminates_witness :
  exists s,
    @run (env healthy) tt
      [T_main; T_main; T_main; T_main; T_read; T_read; T_read; T_read; T_read;
       T_write; T_write; T_write; T_write; T_write; T_closer; T_closer; T_main]
      (NewConnection (no_pools _) ReadAndWrite (w0 _)) = Some s
    /\ 17 <= 20.
Proof.
  assert (H : exists s,
             @run (env healthy) tt
               [T_main; T_main; T_main; T_main; T_read; T_read; T_read; T_read; T_read;
                T_write; T_write; T_write; T_write; T_write; T_closer; T_closer; T_main]
               (NewConnection (no_pools _) ReadAndWrite (w0 _)) = Some s
             /\ True).
  { apply run_result. vm_compute. exact I. }
  destruct H as (s & Hrun & _). exists s. split; [exact Hrun |].
  exact (@NewConnection_terminates (env healthy) tt (no_pools _) ReadAndWrite (w0 _)
           [T_main; T_main; T_main; T_main; T_read; T_read; T_read; T_read; T_read;
            T_write; T_write; T_write; T_write; T_write; T_closer; T_closer; T_main]
           s Hrun).
Defined.

Lemma healthy_connect_read : @connect_ok (env healthy) tt Read Outage.read_secret 75.
Proof.
  constructor.
  - intros w. eexists. cbv. reflexivity.
  - intros w. eexists. cbv. reflexivity.
  - reflexivity.
Defined.

Lemma healthy_connect_write : @connect_ok (env healthy) tt Write Outage.write_secret 76.
Proof.
  constructor.
  - intros w. eexists. cbv. reflexivity.
  - intros w. eexists. cbv. reflexivity.
  - reflexivity.
Defined.

(** [ReadAndWrite] in the healthy sample world: both pools end up in
    their fields under every schedule. *)
Lemma NewConnection_success_witness :
  @connect_ok (env healthy) tt Read Outage.read_secret 75
  /\ @connect_ok (env healthy) tt Write Outage.write_secret 76
  /\ (exists sched s,
        @run (env healthy) tt sched (NewConnection (no_pools _) ReadAndWrite (w0 _)) = Some s
        /\ returned s = Some None)
  /\ forall sched s,
       @run (env healthy) tt sched (NewConnection (no_pools _) ReadAndWrite (w0 _)) = Some s ->
       forall r, returned s = Some r ->
                 r = None /\ db (shared s) = @MkAWSDB (env healthy) (Some 75) (Some 76).
Proof.
  split; [exact healthy_connect_read |]. split; [exact healthy_connect_write |].
  pose proof (@NewConnection_success (env healthy) tt (no_pools _) ReadAndWrite (w0 _)
                Outage.read_secret 75 Outage.write_secret 76 (or_intror (or_intror eq_refl))
                (fun _ => healthy_connect_read) (fun _ => healthy_connect_write))
    as (Hex & Hall).
  split; [exact Hex |].
  intros sched s Hrun r Hret.
  destruct (Hall sched s Hrun) as (_ & _ & Hr).
  destruct (Hr r Hret) as (Hnil & HR & HW).
  split; [exact Hnil |].
  destruct (db (shared s)) as [rd wr]. cbn in HR, HW. rewrite HR, HW. reflexivity.
Defined.

(** [Read] in the sample world where no secret can be fetched. *)
Lemma NewConnection_secret_not_found_witness :
  @secrets_GetSecretValue (env no_secrets) (secretNames Read) = (None, Some not_found)
  /\ exists s,
       @run (env no_secrets) tt [T_main; T_main; T_read; T_read; T_read; T_closer; T_closer]
         (NewConnection (no_pools _) Read (w0 _)) = Some s
       /\ returned s = Some (Some (MkError 1000 "secret not found" None))
       /\ calls (world (shared s)) = [@CallGetSecretValue (env no_secrets) "core_iam_user_read"]
       /\ db (shared s) = no_pools _.
Proof.
  split; [reflexivity |].
  assert (H : exists s,
             @run (env no_secrets) tt [T_main; T_main; T_read; T_read; T_read; T_closer; T_closer]
               (NewConnection (no_pools _) Read (w0 _)) = Some s
             /\ returned s = Some (Some (MkError 1000 "secret not found" None))).
  { apply run_result. vm_compute. reflexivity. }
  destruct H as (s & Hrun & Hret). exists s.
  split; [exact Hrun |]. split; [exact Hret |].
  exact (proj2 (@NewConnection_secret_not_found (env no_secrets) tt (no_pools _) Read (w0 _)
                  None not_found
                  [T_main; T_main; T_read; T_read; T_read; T_closer; T_closer] s
                  (Some (MkError 1000 "secret not found" None))
                  (or_introl eq_refl) eq_refl eq_refl eq_refl Hrun Hret)).
Defined.


(** [Ping] on two healthy pools, run to its end in 12 statements. *)
Lemma Ping_terminates_witness :
  exists s,
    @run (env healthy) tt
      [T_main; T_main; T_main; T_main; T_main; T_read; T_read; T_write; T_write;
       T_closer; T_closer; T_main]
      (Ping (both_pools _) (w0 _)) = Some s
    /\ 12 <= 21.
Proof.
  assert (H : exists s,
             @run (env healthy) tt
               [T_main; T_main; T_main; T_main; T_main; T_read; T_read; T_write; T_write;
                T_closer; T_closer; T_main]
               (Ping (both_pools _) (w0 _)) = Some s
             /\ True).
  { apply run_result. vm_compute. exact I. }
  destruct H as (s & Hrun & _). exists s. split; [exact Hrun |].
  exact (@Ping_terminates (env healthy) tt (both_pools _) (w0 _)
           [T_main; T_main; T_main; T_main; T_main; T_read; T_read; T_write; T_write;
            T_closer; T_closer; T_main] s Hrun).
Defined.

(** [Ping] on two pools of the healthy sample world. *)
Lemma Ping_healthy_witness :
  (forall p, reader (both_pools healthy) = Some p \/ writer (both_pools healthy) = Some p ->
             @pool_Ping (env healthy) p tt = None)
  /\ (exists sched s,
        @run (env healthy) tt sched (Ping (both_pools _) (w0 _)) = Some s /\ returned s = Some None)
  /\ forall sched s,
       @run (env healthy) tt sched (Ping (both_pools _) (w0 _)) = Some s ->
       crashed (shared s) = None /\ forall r, returned s = Some r -> r = None.
Proof.
  assert (Hh : forall p,
             reader (both_pools healthy) = Some p \/ writer (both_pools healthy) = Some p ->
             @pool_Ping (env healthy) p tt = None).
  { intros p _. reflexivity. }
  split; [exact Hh |].
  destruct (@Ping_healthy (env healthy) tt (both_pools _) (w0 _) Hh) as (Hex & Hall).
  split; [exact Hex |].
  intros sched s Hrun. destruct (Hall sched s Hrun) as (Hc & _ & Hr).
  split; [exact Hc | exact Hr].
Defined.

(** The secrets service answers ResourceNotFoundException. *)
Lemma GetSecret_masks_cause_witness :
  @session_NewSession (env no_secrets) = None
  /\ @GetSecret (env no_secrets) "core_iam_user_read" (w0 _)
     = (Val ("", Some (MkError 1000 "secret not found" None)),
        @MkWorld (env no_secrets) 1001
          [@CallGetSecretValue (env no_secrets) "core_iam_user_read"] 0)
  /\ errors_Is (MkError 1000 "secret not found" None) not_found = false.
Proof.
  split; [reflexivity |].
  pose proof (@GetSecret_masks_cause (env no_secrets) "core_iam_user_read" (w0 _) eq_refl)
    as H.
  change (@secrets_GetSecretValue (env no_secrets) "core_iam_user_read")
    with (@None string, Some not_found) in H.
  cbv iota beta in H. destruct H as (Hg & Hi).
  split; [exact Hg |]. apply Hi. reflexivity.
Defined.

(** The first call of the callback in the healthy sample world. *)
Lemma BeforeConnect_keeps_parameters_witness :
  @monotone_clock (env healthy)
  /\ @BeforeConnect (env healthy) tt Outage.fresh_secret tt (MkConnConfig "foo") (w0 _)
     = (Val (set_exp Outage.fresh_secret 890000001100%Z, MkConnConfig "u@h:5432", None),
        @MkWorld (env healthy) 1000
          [@CallLoadDefaultConfig (env healthy) tt;
           @CallBuildAuthToken (env healthy) tt "h:5432" "us-west-2" "u"] 2)
  /\ (exp Outage.fresh_secret <= 890000001100)%Z.
Proof.
  assert (Hm : @monotone_clock (env healthy)).
  { intros n. cbv [clock env]. lia. }
  split; [exact Hm |]. split; [reflexivity |].
  exact (proj1 (proj2 (@BeforeConnect_keeps_parameters (env healthy) tt Outage.fresh_secret
                         tt (MkConnConfig "foo") (w0 _)
                         (set_exp Outage.fresh_secret 890000001100%Z)
                         (MkConnConfig "u@h:5432") None
                         (@MkWorld (env healthy) 1000
                            [@CallLoadDefaultConfig (env healthy) tt;
                             @CallBuildAuthToken (env healthy) tt "h:5432" "us-west-2" "u"] 2)
                         Hm eq_refl))).
Defined.

(** The default configuration cannot be loaded: the callback fails and
    the next call asks again. *)
Lemma BeforeConnect_failure_retries_witness :
  @BeforeConnect Outage.no_credentials tt Outage.fresh_secret tt (MkConnConfig "foo")
    (@MkWorld Outage.no_credentials 1000 [] 0)
  = (Val (Outage.fresh_secret, MkConnConfig "", Some Outage.no_credentials_error),
     @MkWorld Outage.no_credentials 1000 [@CallLoadDefaultConfig Outage.no_credentials tt] 1)
  /\ exists rest,
       calls (snd (@BeforeConnect Outage.no_credentials tt Outage.fresh_secret tt
                     (MkConnConfig "foo")
                     (@MkWorld Outage.no_credentials 1000
                        [@CallLoadDefaultConfig Outage.no_credentials tt] 1)))
       = [@CallLoadDefaultConfig Outage.no_credentials tt]
         ++ @CallLoadDefaultConfig Outage.no_credentials tt :: rest.
Proof.
  destruct (@BeforeConnect_failure_retries Outage.no_credentials tt Outage.fresh_secret tt
              (MkConnConfig "foo") (@MkWorld Outage.no_credentials 1000 [] 0) ""
              Outage.no_credentials_error
              (@MkWorld Outage.no_credentials 1000
                 [@CallLoadDefaultConfig Outage.no_credentials tt] 1)
              eq_refl eq_refl) as (H1 & H2).
  split; [exact H1 |].
  refine (H2 tt (MkConnConfig "foo")
            (@MkWorld Outage.no_credentials 1000
               [@CallLoadDefaultConfig Outage.no_credentials tt] 1) _).
  cbn. lia.
Defined.

(** AWS_REGION unset. *)
Lemma BeforeConnect_region_unset_witness :
  @awsConfig_Region Outage.no_region = None
  /\ @BeforeConnect Outage.no_region tt Outage.fresh_secret tt (MkConnConfig "foo")
       (@MkWorld Outage.no_region 1000 [] 0)
     = (Panic nil_deref,
        @MkWorld Outage.no_region 1000 [@CallLoadDefaultConfig Outage.no_region tt] 1).
Proof.
  split; [reflexivity |].
  exact (@BeforeConnect_region_unset Outage.no_region tt Outage.fresh_secret tt
           (MkConnConfig "foo") (@MkWorld Outage.no_region 1000 [] 0)
           eq_refl eq_refl eq_refl).
Defined.

End MoreRuns.
